(** * Verification of the log consumer ([consumer/consumer.py])

    The development embeds three parts of the consumer:

    - the log-line parser: [log_pattern] (a compiled regular expression) and
      [parse_log], over a backtracking matcher that follows the priority
      order of Python's [re] engine;
    - the record store: [create_log_table] and [insert_log] over a small
      model of the database connection;
    - the ingestion loop [consume_logs], as a step function over the
      outcomes of [consumer.poll].
*)

From Stdlib Require Import List String Ascii NArith ZArith Lia Bool Arith DecimalString.
From stdpp Require Import gmap strings.
Import ListNotations.

Local Open Scope list_scope.
Local Open Scope nat_scope.

(* ------------------------------------------------------------------ *)
(** ** Text *)

(** A Python [str] is a sequence of Unicode code points. *)
Definition char := N.
Definition str := list char.

Definition of_string (s : string) : str :=
  List.map N_of_ascii (list_ascii_of_string s).

Definition in_ranges (tbl : list (N * N)) (c : char) : bool :=
  existsb (fun r => (fst r <=? c)%N && (c <=? snd r)%N) tbl.

(** [\s] on a [str] pattern: the code points for which [str.isspace] holds. *)
Definition space_ranges : list (N * N) :=
  [ (9, 13); (28, 32); (133, 133); (160, 160); (5760, 5760); (8192, 8202);
    (8232, 8233); (8239, 8239); (8287, 8287); (12288, 12288) ]%N.

(** [\d] on a [str] pattern: the decimal digits (category Nd) of the Unicode
    database, here the one of Unicode 14.0 as shipped with CPython 3.11. *)
Definition digit_ranges : list (N * N) :=
  [ (48, 57); (1632, 1641); (1776, 1785); (1984, 1993); (2406, 2415);
    (2534, 2543); (2662, 2671); (2790, 2799); (2918, 2927); (3046, 3055);
    (3174, 3183); (3302, 3311); (3430, 3439); (3558, 3567); (3664, 3673);
    (3792, 3801); (3872, 3881); (4160, 4169); (4240, 4249); (6112, 6121);
    (6160, 6169); (6470, 6479); (6608, 6617); (6784, 6793); (6800, 6809);
    (6992, 7001); (7088, 7097); (7232, 7241); (7248, 7257); (42528, 42537);
    (43216, 43225); (43264, 43273); (43472, 43481); (43504, 43513);
    (43600, 43609); (44016, 44025); (65296, 65305); (66720, 66729);
    (68912, 68921); (69734, 69743); (69872, 69881); (69942, 69951);
    (70096, 70105); (70384, 70393); (70736, 70745); (70864, 70873);
    (71248, 71257); (71360, 71369); (71472, 71481); (71904, 71913);
    (72016, 72025); (72784, 72793); (73040, 73049); (73120, 73129);
    (92768, 92777); (92864, 92873); (93008, 93017); (120782, 120831);
    (123200, 123209); (123632, 123641); (125264, 125273);
    (130032, 130041) ]%N.

Definition uni_space : char -> bool := in_ranges space_ranges.
Definition uni_digit : char -> bool := in_ranges digit_ranges.

(* ------------------------------------------------------------------ *)
(** ** Regular expressions and the backtracking matcher *)

(** One member of a bracketed character set. *)
Inductive citem :=
| IChar (c : char)            (* a literal character *)
| IRange (lo hi : char)       (* [lo-hi] *)
| IDigit                      (* \d *)
| ISpace.                     (* \s *)

(** A character set [[...]] or [[^...]]. *)
Record cset := CSet { negated : bool; items : list citem }.

Definition citem_mem (i : citem) (c : char) : bool :=
  match i with
  | IChar x => (c =? x)%N
  | IRange lo hi => (lo <=? c)%N && (c <=? hi)%N
  | IDigit => uni_digit c
  | ISpace => uni_space c
  end.

Definition cmem (cs : cset) (c : char) : bool :=
  xorb (negated cs) (existsb (fun i => citem_mem i c) (items cs)).

(** The fragment of [re] syntax the consumer's pattern is written in:
    literal text, a character set under a counted quantifier (greedy or
    lazy), concatenation and named groups. *)
Inductive re :=
| Lit (l : str)
| Rep (cs : cset) (lo : nat) (hi : option nat) (greedy : bool)
| Seq (a b : re)
| Group (name : string) (a : re).

Definition caps := list (string * str).

(** One way of matching: the text consumed, the groups captured, and the
    rest of the subject. *)
Definition result := (str * caps * str)%type.

Fixpoint strip_prefix (l s : str) : option str :=
  match l, s with
  | [], _ => Some s
  | x :: l', y :: s' => if (x =? y)%N then strip_prefix l' s' else None
  | _ :: _, [] => None
  end.

(** Length of the longest prefix of [s] made of members of [cs]. *)
Fixpoint span (cs : cset) (s : str) : nat :=
  match s with
  | c :: s' => if cmem cs c then S (span cs s') else 0
  | [] => 0
  end.

(** The repetition counts the engine tries, in the order it tries them:
    a greedy quantifier from the longest down, a lazy one from the
    shortest up. *)
Definition counts (lo : nat) (hi : option nat) (greedy : bool) (n : nat)
  : list nat :=
  let m := match hi with Some h => Nat.min n h | None => n end in
  if m <? lo then []
  else let up := seq lo (m - lo + 1) in
       if greedy then rev up else up.

(** All the ways [r] matches at the start of [s], in the engine's
    backtracking order. *)
Fixpoint run (r : re) (s : str) : list result :=
  match r with
  | Lit l =>
      match strip_prefix l s with
      | Some t => [(l, [], t)]
      | None => []
      end
  | Rep cs lo hi greedy =>
      List.map (fun k => (firstn k s, [], skipn k s))
               (counts lo hi greedy (span cs s))
  | Seq a b =>
      flat_map
        (fun x : result =>
           let '(u, ca, t) := x in
           List.map (fun y : result =>
                       let '(v, cb, t') := y in (u ++ v, ca ++ cb, t'))
                    (run b t))
        (run a s)
  | Group name a =>
      List.map (fun x : result =>
                  let '(u, ca, t) := x in (u, (name, u) :: ca, t))
               (run a s)
  end.

(** A match object: the matched text and the named groups. *)
Record match_obj := MatchObj { matched : str; groups : caps }.

(** [pattern.match(s)]: the first way of matching at position 0, if any.
    The match need not reach the end of [s]. *)
Definition re_match (r : re) (s : str) : option match_obj :=
  match run r s with
  | [] => None
  | (u, c, _) :: _ => Some (MatchObj u c)
  end.

Fixpoint assoc (name : string) (c : caps) : option str :=
  match c with
  | [] => None
  | (n, v) :: c' => if String.eqb n name then Some v else assoc name c'
  end.

(** [match.group(name)]. *)
Definition group (m : match_obj) (name : string) : option str :=
  assoc name (groups m).

(* ------------------------------------------------------------------ *)
(** ** The log pattern *)

Declare Scope re_scope.
Delimit Scope re_scope with re.
Bind Scope re_scope with re.
Infix "+++" := Seq (at level 60, right associativity) : re_scope.

Definition lit (s : string) : re := Lit (of_string s).
Definition chr (s : string) : citem :=
  match of_string s with c :: _ => IChar c | [] => IChar 0%N end.
Definition rng (a b : string) : citem :=
  match of_string a, of_string b with
  | x :: _, y :: _ => IRange x y
  | _, _ => IRange 1%N 0%N
  end.

Definition cs_digit : cset := CSet false [IDigit].                      (* \d *)
Definition cs_sign : cset := CSet false [chr "+"; chr "-"].             (* [+-] *)
Definition cs_upper : cset := CSet false [rng "A" "Z"; chr "_"].        (* [A-Z_] *)
Definition cs_nospace : cset := CSet true [ISpace].                     (* [^\s] *)
Definition cs_nopipe : cset := CSet true [chr "|"].                     (* [^|] *)
Definition cs_nopipe_nospace : cset := CSet true [chr "|"; ISpace].     (* [^|\s] *)

Definition exactly (cs : cset) (n : nat) : re := Rep cs n (Some n) true.   (* x{n} *)
Definition plus (cs : cset) : re := Rep cs 1 None true.                    (* x+ *)
Definition star (cs : cset) : re := Rep cs 0 None true.                    (* x* *)
Definition star_lazy (cs : cset) : re := Rep cs 0 None false.              (* x*? *)

Definition timestamp_re : re :=
  (exactly cs_digit 4 +++ lit "-" +++ exactly cs_digit 2 +++ lit "-" +++
   exactly cs_digit 2 +++ lit "T" +++ exactly cs_digit 2 +++ lit ":" +++
   exactly cs_digit 2 +++ lit ":" +++ exactly cs_digit 2 +++ lit "." +++
   plus cs_digit +++ exactly cs_sign 1 +++ exactly cs_digit 2 +++ lit ":" +++
   exactly cs_digit 2)%re.

Definition log_id_re : re :=
  (lit "ACT-" +++ exactly cs_digit 8 +++ lit "T" +++ exactly cs_digit 6 +++
   lit "-" +++ plus cs_digit)%re.

Definition log_pattern : re :=
  (Group "timestamp" timestamp_re +++ lit " | " +++
   Group "log_id" log_id_re +++ lit " | " +++
   Group "event_type" (plus cs_upper) +++ lit " | " +++
   lit "user_id=" +++ Group "user_id" (plus cs_nospace) +++ lit " " +++
   lit "username=" +++ Group "username" (star_lazy cs_nopipe) +++ lit " " +++
   lit "ip_address=" +++ Group "ip_address" (plus cs_nospace) +++ lit " " +++
   lit "country=" +++ Group "country" (star_lazy cs_nopipe) +++ lit " " +++
   lit "region=" +++ Group "region" (star_lazy cs_nopipe) +++ lit " " +++
   lit "city=" +++ Group "city" (star_lazy cs_nopipe) +++ lit " " +++
   lit "coordinates=" +++ Group "coordinates" (star_lazy cs_nopipe) +++ lit " " +++
   lit "os=" +++ Group "os" (star_lazy cs_nopipe) +++ lit " " +++
   lit "browser=" +++ Group "browser" (star_lazy cs_nopipe) +++ lit " " +++
   lit "device_type=" +++ Group "device_type" (star_lazy cs_nopipe) +++ lit " | " +++
   lit "action=" +++ Group "action" (star cs_nopipe_nospace) +++ lit " " +++
   lit "status=" +++ Group "status" (star cs_nopipe_nospace) +++ lit " | " +++
   lit "session_id=" +++ Group "session_id" (star cs_nopipe_nospace) +++ lit " " +++
   lit "request_id=" +++ Group "request_id" (star cs_nopipe_nospace) +++ lit " " +++
   lit "trace_id=" +++ Group "trace_id" (star cs_nopipe_nospace))%re.

(* ------------------------------------------------------------------ *)
(** ** Logging *)

Inductive level := DEBUG | INFO | WARNING | ERROR.

(** One call of the [logging] module: the level and the formatted message. *)
Definition log_entry := (level * str)%type.

(* ------------------------------------------------------------------ *)
(** ** [parse_log] *)

(** The 18-tuple [parse_log] returns; a component is a [str] or [None]. *)
Record log_data := LogData {
  timestamp : option str;
  log_id : option str;
  event_type : option str;
  user_id : option str;
  username : option str;
  ip_address : option str;
  country : option str;
  region : option str;
  city : option str;
  coordinates : option str;
  os : option str;
  browser : option str;
  device_type : option str;
  action : option str;
  status : option str;
  session_id : option str;
  request_id : option str;
  trace_id : option str
}.

(** [value if value else None]: the empty string and [None] are falsy. *)
Definition replace_empty_with_none (value : option str) : option str :=
  match value with
  | Some (_ :: _) => value
  | _ => None
  end.

(** [parse_log(log_message)]: the tuple, or [None] after a warning that
    quotes the message. *)
Definition parse_log (log_message : str) : option log_data * list log_entry :=
  match re_match log_pattern log_message with
  | Some m =>
      (Some (LogData
         (group m "timestamp")
         (group m "log_id")
         (group m "event_type")
         (replace_empty_with_none (group m "user_id"))
         (replace_empty_with_none (group m "username"))
         (replace_empty_with_none (group m "ip_address"))
         (replace_empty_with_none (group m "country"))
         (replace_empty_with_none (group m "region"))
         (replace_empty_with_none (group m "city"))
         (replace_empty_with_none (group m "coordinates"))
         (replace_empty_with_none (group m "os"))
         (replace_empty_with_none (group m "browser"))
         (replace_empty_with_none (group m "device_type"))
         (replace_empty_with_none (group m "action"))
         (replace_empty_with_none (group m "status"))
         (replace_empty_with_none (group m "session_id"))
         (replace_empty_with_none (group m "request_id"))
         (replace_empty_with_none (group m "trace_id"))),
       [])
  | None =>
      (None, [(WARNING, of_string "Log format is invalid: " ++ log_message)])
  end.

(* ------------------------------------------------------------------ *)
(** ** The grammar, declaratively *)

Definition fits (hi : option nat) (n : nat) : Prop :=
  match hi with Some h => n <= h | None => True end.

(** [derives r u c]: the text [u] is in the language of [r], the groups of
    [r] capturing [c]. No matching order is involved. *)
Fixpoint derives (r : re) (u : str) (c : caps) : Prop :=
  match r with
  | Lit l => u = l /\ c = []
  | Rep cs lo hi _ =>
      forallb (cmem cs) u = true /\ lo <= length u /\ fits hi (length u) /\
      c = []
  | Seq a b =>
      exists u1 u2 c1 c2,
        u = u1 ++ u2 /\ c = c1 ++ c2 /\ derives a u1 c1 /\ derives b u2 c2
  | Group name a =>
      exists c', c = (name, u) :: c' /\ derives a u c'
  end.

(** The values of the eighteen fields of a line, as text. *)
Record fields := Fields {
  f_timestamp : str;
  f_log_id : str;
  f_event_type : str;
  f_user_id : str;
  f_username : str;
  f_ip_address : str;
  f_country : str;
  f_region : str;
  f_city : str;
  f_coordinates : str;
  f_os : str;
  f_browser : str;
  f_device_type : str;
  f_action : str;
  f_status : str;
  f_session_id : str;
  f_request_id : str;
  f_trace_id : str
}.

(** The line that carries the field values [f]. *)
Definition render (f : fields) : str :=
  f_timestamp f ++ of_string " | " ++
  f_log_id f ++ of_string " | " ++
  f_event_type f ++ of_string " | " ++
  of_string "user_id=" ++ f_user_id f ++ of_string " " ++
  of_string "username=" ++ f_username f ++ of_string " " ++
  of_string "ip_address=" ++ f_ip_address f ++ of_string " " ++
  of_string "country=" ++ f_country f ++ of_string " " ++
  of_string "region=" ++ f_region f ++ of_string " " ++
  of_string "city=" ++ f_city f ++ of_string " " ++
  of_string "coordinates=" ++ f_coordinates f ++ of_string " " ++
  of_string "os=" ++ f_os f ++ of_string " " ++
  of_string "browser=" ++ f_browser f ++ of_string " " ++
  of_string "device_type=" ++ f_device_type f ++ of_string " | " ++
  of_string "action=" ++ f_action f ++ of_string " " ++
  of_string "status=" ++ f_status f ++ of_string " | " ++
  of_string "session_id=" ++ f_session_id f ++ of_string " " ++
  of_string "request_id=" ++ f_request_id f ++ of_string " " ++
  of_string "trace_id=" ++ f_trace_id f.

(** The groups a match of [render f] with the values [f] captures. *)
Definition captures_of (f : fields) : caps :=
  [ ("timestamp", f_timestamp f); ("log_id", f_log_id f);
    ("event_type", f_event_type f); ("user_id", f_user_id f);
    ("username", f_username f); ("ip_address", f_ip_address f);
    ("country", f_country f); ("region", f_region f); ("city", f_city f);
    ("coordinates", f_coordinates f); ("os", f_os f);
    ("browser", f_browser f); ("device_type", f_device_type f);
    ("action", f_action f); ("status", f_status f);
    ("session_id", f_session_id f); ("request_id", f_request_id f);
    ("trace_id", f_trace_id f) ].

(** Each value is in the language of its field. *)
Record in_grammar (f : fields) : Prop := InGrammar {
  g_timestamp : derives timestamp_re (f_timestamp f) [];
  g_log_id : derives log_id_re (f_log_id f) [];
  g_event_type : derives (plus cs_upper) (f_event_type f) [];
  g_user_id : derives (plus cs_nospace) (f_user_id f) [];
  g_username : derives (star_lazy cs_nopipe) (f_username f) [];
  g_ip_address : derives (plus cs_nospace) (f_ip_address f) [];
  g_country : derives (star_lazy cs_nopipe) (f_country f) [];
  g_region : derives (star_lazy cs_nopipe) (f_region f) [];
  g_city : derives (star_lazy cs_nopipe) (f_city f) [];
  g_coordinates : derives (star_lazy cs_nopipe) (f_coordinates f) [];
  g_os : derives (star_lazy cs_nopipe) (f_os f) [];
  g_browser : derives (star_lazy cs_nopipe) (f_browser f) [];
  g_device_type : derives (star_lazy cs_nopipe) (f_device_type f) [];
  g_action : derives (star cs_nopipe_nospace) (f_action f) [];
  g_status : derives (star cs_nopipe_nospace) (f_status f) [];
  g_session_id : derives (star cs_nopipe_nospace) (f_session_id f) [];
  g_request_id : derives (star cs_nopipe_nospace) (f_request_id f) [];
  g_trace_id : derives (star cs_nopipe_nospace) (f_trace_id f) []
}.

(** [is_infix l v]: the text [l] occurs somewhere in [v]. *)
Fixpoint is_infix (l v : str) : bool :=
  match strip_prefix l v with
  | Some _ => true
  | None => match v with
            | [] => false
            | _ :: v' => is_infix l v'
            end
  end.

(** A value that may contain spaces runs up to the next field boundary: it
    does not itself contain the key that follows it. *)
Record delimited (f : fields) : Prop := Delimited {
  d_username : is_infix (of_string " ip_address=") (f_username f) = false;
  d_country : is_infix (of_string " region=") (f_country f) = false;
  d_region : is_infix (of_string " city=") (f_region f) = false;
  d_city : is_infix (of_string " coordinates=") (f_city f) = false;
  d_coordinates : is_infix (of_string " os=") (f_coordinates f) = false;
  d_os : is_infix (of_string " browser=") (f_os f) = false;
  d_browser : is_infix (of_string " device_type=") (f_browser f) = false
}.

(** A line of the grammar of the log format, with its field values. *)
Definition grammatical (f : fields) : Prop := in_grammar f /\ delimited f.

(** Every field has a non-empty value. *)
Definition populated (f : fields) : Prop :=
  f_timestamp f <> [] /\ f_log_id f <> [] /\ f_event_type f <> [] /\
  f_user_id f <> [] /\ f_username f <> [] /\ f_ip_address f <> [] /\
  f_country f <> [] /\ f_region f <> [] /\ f_city f <> [] /\
  f_coordinates f <> [] /\ f_os f <> [] /\ f_browser f <> [] /\
  f_device_type f <> [] /\ f_action f <> [] /\ f_status f <> [] /\
  f_session_id f <> [] /\ f_request_id f <> [] /\ f_trace_id f <> [].

(** The record whose components are the values of [f] as they stand. *)
Definition verbatim (f : fields) : log_data :=
  LogData (Some (f_timestamp f)) (Some (f_log_id f)) (Some (f_event_type f))
          (Some (f_user_id f)) (Some (f_username f)) (Some (f_ip_address f))
          (Some (f_country f)) (Some (f_region f)) (Some (f_city f))
          (Some (f_coordinates f)) (Some (f_os f)) (Some (f_browser f))
          (Some (f_device_type f)) (Some (f_action f)) (Some (f_status f))
          (Some (f_session_id f)) (Some (f_request_id f))
          (Some (f_trace_id f)).

(** An empty value stands for an absent component. *)
Definition absent_if_empty (v : str) : option str :=
  match v with [] => None | _ :: _ => Some v end.

(** The record of [f] with the empty values of all but the first three
    components turned into absent ones. *)
Definition normalized (f : fields) : log_data :=
  LogData (Some (f_timestamp f)) (Some (f_log_id f)) (Some (f_event_type f))
          (absent_if_empty (f_user_id f)) (absent_if_empty (f_username f))
          (absent_if_empty (f_ip_address f)) (absent_if_empty (f_country f))
          (absent_if_empty (f_region f)) (absent_if_empty (f_city f))
          (absent_if_empty (f_coordinates f)) (absent_if_empty (f_os f))
          (absent_if_empty (f_browser f)) (absent_if_empty (f_device_type f))
          (absent_if_empty (f_action f)) (absent_if_empty (f_status f))
          (absent_if_empty (f_session_id f)) (absent_if_empty (f_request_id f))
          (absent_if_empty (f_trace_id f)).

Definition no_space (v : str) : Prop :=
  forallb (fun c => negb (uni_space c)) v = true.
Definition no_pipe (v : str) : Prop :=
  forallb (fun c => negb (c =? 124)%N) v = true.

(** [r] contains no group. *)
Fixpoint groupless (r : re) : bool :=
  match r with
  | Lit _ | Rep _ _ _ _ => true
  | Seq a b => groupless a && groupless b
  | Group _ _ => false
  end.

(** The subject stops the repetition of [cs]: it is empty or starts with a
    character outside [cs]. *)
Definition stops (cs : cset) (s : str) : Prop :=
  match s with
  | [] => True
  | x :: _ => cmem cs x = false
  end.

(** [first r s x]: the first way the engine matches [r] on [s] is [x]. *)
Definition first (r : re) (s : str) (x : result) : Prop :=
  hd_error (run r s) = Some x.

(* ------------------------------------------------------------------ *)
(** ** Exceptions, state and effects *)

Inductive exn_class :=
| KeyboardInterrupt          (* not a subclass of [Exception] *)
| KafkaException
| UnicodeDecodeError
| DatabaseError              (* psycopg2.Error, raised for a failed statement *)
| InterfaceError             (* psycopg2: the connection is closed *)
| ValueError.                (* raised by the driver for a value it cannot send *)

(** An exception: its class and its text ([str(e)]). *)
Record exn := Exn { exn_class_of : exn_class; exn_str : str }.

(** [isinstance(e, Exception)]. *)
Definition is_Exception (e : exn) : bool :=
  match exn_class_of e with
  | KeyboardInterrupt => false
  | _ => true
  end.

Inductive outcome (A : Type) :=
| Ok (a : A)
| Raised (e : exn).
Arguments Ok {A} a.
Arguments Raised {A} e.

(** A value of the [TIMESTAMP] type of the server. *)
Definition stamp := Z.

(** A stored row: the [SERIAL] key, the value of the [timestamp] column
    (the server's conversion of the text sent), and the seventeen [TEXT]
    values, in the order of the columns. *)
Record row := Row { id : Z; row_timestamp : stamp; row_texts : list (option str) }.

Record column := Column { col_name : string; col_type : string; not_null : bool }.

Record table := Table { schema : list column; next_id : Z; rows : list row }.

(** What the driver and the server make of a value sent, which the
    consumer's code does not decide: [text_in] is the exception raised, if
    any, for a [str] parameter (one with a NUL character, one outside the
    encoding of the database); [timestamp_in] is the server's conversion of
    a literal to [TIMESTAMP], which raises when the text is not a date. *)
Record postgres := Postgres {
  text_in : str -> option exn;
  timestamp_in : str -> outcome stamp
}.

(** The database as seen through the connection: the server behind it, the
    committed tables by name, and whether the connection was closed. *)
Record connection := Connection {
  backend : postgres;
  catalog : gmap string table;
  closed : bool
}.

(** What the surroundings do to one transaction of the store, which the
    values sent do not decide: the failure, if any, of the statement
    ([on_execute]: connection lost, server error) and of the commit
    ([on_commit]); whether the sequence of the key had advanced when the
    statement failed on the server ([key_drawn]); and whether a commit that
    raised had nevertheless taken effect ([commit_applied]). *)
Record faults := Faults {
  on_execute : option exn;
  key_drawn : bool;
  on_commit : option exn;
  commit_applied : bool
}.

Definition no_faults : faults := Faults None false None false.

(** The calls made to the stream client and to the store, in order. *)
Inductive call :=
| CPoll
| CExecuteCreate
| CExecuteInsert (d : log_data)
| CCommit
| CConsumerClose
| CConnClose.

Record world := World {
  conn : connection;
  consumer_open : bool;
  calls : list call;
  log : list log_entry
}.

(** Computations that read and write the world and may raise. *)
Definition M (A : Type) : Type := world -> outcome A * world.

Definition ret {A} (a : A) : M A := fun w => (Ok a, w).
Definition raise {A} (e : exn) : M A := fun w => (Raised e, w).
Definition bind {A B} (m : M A) (k : A -> M B) : M B :=
  fun w => match m w with
           | (Ok a, w') => k a w'
           | (Raised e, w') => (Raised e, w')
           end.

Notation "x <- m ;; k" := (bind m (fun x => k))
  (at level 100, m at next level, right associativity).
Notation "m ;; k" := (bind m (fun _ => k))
  (at level 100, right associativity).

(** [try: body except Exception as e: handler(e); raise]. *)
Definition reraising {A} (body : M A) (handler : exn -> M unit) : M A :=
  fun w => match body w with
           | (Ok a, w') => (Ok a, w')
           | (Raised e, w') =>
               if is_Exception e
               then match handler e w' with
                    | (Ok _, w'') => (Raised e, w'')
                    | (Raised e', w'') => (Raised e', w'')
                    end
               else (Raised e, w')
           end.

Definition level_rank (l : level) : nat :=
  match l with DEBUG => 10 | INFO => 20 | WARNING => 30 | ERROR => 40 end.

(** [logging.basicConfig(level=logging.INFO, ...)]: calls below [INFO]
    leave no entry. *)
Definition logging (l : level) (message : str) : M unit :=
  fun w =>
    (Ok tt,
     if level_rank INFO <=? level_rank l
     then World (conn w) (consumer_open w) (calls w) (log w ++ [(l, message)])
     else w).

Definition called (c : call) : M unit :=
  fun w => (Ok tt, World (conn w) (consumer_open w) (calls w ++ [c]) (log w)).

Definition get_conn : M connection := fun w => (Ok (conn w), w).
Definition set_conn (c : connection) : M unit :=
  fun w => (Ok tt, World c (consumer_open w) (calls w) (log w)).

Definition set_catalog (cat : gmap string table) : M unit :=
  fun w => (Ok tt,
            World (Connection (backend (conn w)) cat (closed (conn w)))
                  (consumer_open w) (calls w) (log w)).

(** A request to the outside: [fault] is the failure, if any, that it
    ends with. *)
Definition server (fault : option exn) : M unit :=
  match fault with
  | Some e => raise e
  | None => ret tt
  end.

(** [conn.commit()]: the tables become [applied]; when the commit raises,
    they become [applied] or [unapplied] as the surroundings have it. *)
Definition commit (f : faults) (applied unapplied : gmap string table)
  : M unit :=
  called CCommit ;;
  match on_commit f with
  | None => set_catalog applied
  | Some e =>
      set_catalog (if commit_applied f then applied else unapplied) ;;
      raise e
  end.

(** [conn.cursor()] on a closed connection raises. *)
Definition cursor : M unit :=
  c <- get_conn ;;
  if closed c
  then raise (Exn InterfaceError (of_string "connection already closed"))
  else ret tt.

(* ------------------------------------------------------------------ *)
(** ** The record store *)

Definition logs_schema : list column :=
  [ Column "id" "SERIAL PRIMARY KEY" true;
    Column "timestamp" "TIMESTAMP" true;
    Column "log_id" "TEXT" true;
    Column "event_type" "TEXT" true;
    Column "user_id" "TEXT" false;
    Column "username" "TEXT" false;
    Column "ip_address" "TEXT" false;
    Column "country" "TEXT" false;
    Column "region" "TEXT" false;
    Column "city" "TEXT" false;
    Column "coordinates" "TEXT" false;
    Column "os" "TEXT" false;
    Column "browser" "TEXT" false;
    Column "device_type" "TEXT" false;
    Column "action" "TEXT" false;
    Column "status" "TEXT" false;
    Column "session_id" "TEXT" false;
    Column "request_id" "TEXT" false;
    Column "trace_id" "TEXT" false ].

(** [CREATE TABLE IF NOT EXISTS logs (...)]: an existing table of that
    name is left as it is. *)
Definition create_if_not_exists (cat : gmap string table) : gmap string table :=
  match cat !! "logs" with
  | Some _ => cat
  | None => <["logs" := Table logs_schema 1 []]> cat
  end.

Definition create_log_table (f : faults) : M unit :=
  reraising
    (cursor ;;
     called CExecuteCreate ;;
     server (on_execute f) ;;
     c <- get_conn ;;
     commit f (create_if_not_exists (catalog c)) (catalog c) ;;
     logging INFO (of_string "Created logs table (if it didn't exist)."))
    (fun e => logging ERROR (of_string "Failed to create logs table: " ++ exn_str e)).

(** The [NOT NULL] columns of a row to insert are filled. *)
Definition not_null_ok (d : log_data) : bool :=
  match timestamp d, log_id d, event_type d with
  | Some _, Some _, Some _ => true
  | _, _, _ => false
  end.

(** The eighteen parameters of the [INSERT], in the order of the
    placeholders. *)
Definition parameters (d : log_data) : list (option str) :=
  [ timestamp d; log_id d; event_type d; user_id d; username d;
    ip_address d; country d; region d; city d; coordinates d; os d;
    browser d; device_type d; action d; status d; session_id d;
    request_id d; trace_id d ].

(** The values of the seventeen [TEXT] columns. *)
Definition text_columns (d : log_data) : list (option str) :=
  [ log_id d; event_type d; user_id d; username d; ip_address d;
    country d; region d; city d; coordinates d; os d; browser d;
    device_type d; action d; status d; session_id d; request_id d;
    trace_id d ].

(** The parameters are adapted one after the other; [None] is sent as
    [NULL]. The first exception ends the call. *)
Fixpoint adapt (srv : postgres) (ps : list (option str)) : option exn :=
  match ps with
  | [] => None
  | None :: ps' => adapt srv ps'
  | Some s :: ps' =>
      match text_in srv s with
      | Some e => Some e
      | None => adapt srv ps'
      end
  end.

Definition column_eqb (a b : column) : bool :=
  String.eqb (col_name a) (col_name b) && String.eqb (col_type a) (col_type b)
  && Bool.eqb (not_null a) (not_null b).

Fixpoint schema_eqb (a b : list column) : bool :=
  match a, b with
  | [], [] => true
  | x :: a', y :: b' => column_eqb x y && schema_eqb a' b'
  | _, _ => false
  end.

(** The table has the columns the [INSERT] names and fills. *)
Definition schema_ok (t : table) : bool := schema_eqb (schema t) logs_schema.

(** The table [t] once the sequence of its key has advanced. *)
Definition drawn_key (t : table) : table :=
  Table (schema t) (next_id t + 1) (rows t).

(** The table [t] with the row [r] appended. *)
Definition with_row (t : table) (r : row) : table :=
  Table (schema t) (next_id t + 1) (rows t ++ [r]).

(** The statement fails on the server with [e]: the sequence of the key is
    not part of the transaction, and has advanced or not as the
    surroundings have it. *)
Definition refused {A} (f : faults) (e : exn) : M A :=
  c <- get_conn ;;
  match catalog c !! "logs" with
  | Some t =>
      (if key_drawn f
       then set_catalog (<["logs" := drawn_key t]> (catalog c))
       else ret tt) ;;
      raise e
  | None => raise e
  end.

(** [cursor.execute("INSERT INTO logs (...) VALUES (...)", log_data)]: the
    table and the row the transaction is to append to it. The driver
    adapts the parameters; the server needs the table, converts the
    timestamp and checks the [NOT NULL] columns; the new row takes the
    next key of the sequence. *)
Definition execute_insert (f : faults) (d : log_data) : M (table * row) :=
  c <- get_conn ;;
  match adapt (backend c) (parameters d) with
  | Some e => raise e
  | None =>
      match on_execute f with
      | Some e => refused f e
      | None =>
          match catalog c !! "logs" with
          | None =>
              raise (Exn DatabaseError (of_string "relation logs does not exist"))
          | Some t =>
              if schema_ok t
              then match timestamp d with
                   | None =>
                       refused f (Exn DatabaseError
                                      (of_string "null value violates not-null constraint"))
                   | Some s =>
                       match timestamp_in (backend c) s with
                       | Raised e => refused f e
                       | Ok z =>
                           if not_null_ok d
                           then ret (t, Row (next_id t) z (text_columns d))
                           else refused f (Exn DatabaseError
                                               (of_string "null value violates not-null constraint"))
                       end
                   end
              else refused f (Exn DatabaseError
                                  (of_string "column of relation logs does not exist"))
          end
      end
  end.

Arguments adapt : simpl never.
Arguments parameters : simpl never.
Arguments text_columns : simpl never.
Arguments not_null_ok : simpl never.
Arguments schema_ok : simpl never.
Arguments drawn_key : simpl never.
Arguments with_row : simpl never.

(** [f"{value}"] of a component of the tuple. *)
Definition format_component (v : option str) : str :=
  match v with
  | Some s => s
  | None => of_string "None"
  end.

Definition insert_log (f : faults) (log_data : log_data) : M unit :=
  reraising
    (cursor ;;
     called (CExecuteInsert log_data) ;;
     tr <- execute_insert f log_data ;;
     c <- get_conn ;;
     commit f (<["logs" := with_row (fst tr) (snd tr)]> (catalog c))
              (<["logs" := drawn_key (fst tr)]> (catalog c)) ;;
     logging INFO (of_string "Inserted log into PostgreSQL: "
                   ++ format_component (log_id log_data)))
    (fun e => logging ERROR (of_string "Failed to insert log into PostgreSQL: "
                             ++ exn_str e)).

(* ------------------------------------------------------------------ *)
(** ** The stream client *)

(** [msg.error()]: the error code and its text. *)
Record kafka_error := KafkaError { code : Z; error_str : str }.

(** [KafkaError._PARTITION_EOF]. *)
Definition _PARTITION_EOF : Z := -191.

(** A polled message: its error if it is an event rather than a record, its
    partition, and what [msg.value().decode("utf-8")] gives. *)
Record message := Message {
  error : option kafka_error;
  partition : option Z;
  value : outcome str
}.

(** What the surroundings do in one turn of the loop: what
    [consumer.poll(timeout=1.0)] returns or raises, and what they do to the
    transaction of the insert, if the turn comes to one. *)
Record env_step := EnvStep {
  polled : outcome (option message);
  store_fault : faults
}.

Definition poll (e : env_step) : M (option message) :=
  called CPoll ;; (fun w => (polled e, w)).

Definition decode (m : message) : M str := fun w => (value m, w).

Definition format_partition (p : option Z) : str :=
  match p with
  | Some z => of_string (NilZero.string_of_int (Z.to_int z))
  | None => of_string "None"
  end.

Definition consumer_close : M unit :=
  called CConsumerClose ;;
  (fun w => (Ok tt, World (conn w) false (calls w) (log w))).

Definition conn_close : M unit :=
  called CConnClose ;;
  c <- get_conn ;;
  set_conn (Connection (backend c) (catalog c) true).

(* ------------------------------------------------------------------ *)
(** ** The ingestion loop *)

(** [parse_log] inside the loop: its log entries go to the log. *)
Definition parse_log_m (log_message : str) : M (option log_data) :=
  let (r, entries) := parse_log log_message in
  fold_right (fun en k => logging (fst en) (snd en) ;; k) (ret r) entries.

(** One turn of [while True]. *)
Definition iteration (e : env_step) : M unit :=
  logging DEBUG (of_string "Polling for messages...") ;;
  msg <- poll e ;;
  match msg with
  | None => logging DEBUG (of_string "No message received.")
  | Some msg =>
      match error msg with
      | Some err =>
          logging ERROR (of_string "Kafka error: " ++ error_str err) ;;
          if (code err =? _PARTITION_EOF)%Z
          then logging INFO (of_string "End of partition reached: "
                             ++ format_partition (partition msg))
          else raise (Exn KafkaException (error_str err))
      | None =>
          log_message <- decode msg ;;
          logging DEBUG (of_string "Received log message: " ++ log_message) ;;
          log_data <- parse_log_m log_message ;;
          match log_data with
          | Some d => insert_log (store_fault e) d
          | None => ret tt
          end
      end
  end.

(** The loop over the turns observed so far: the exception that left it, or
    [None] while it is still running. *)
Fixpoint while_true (envs : list env_step) (w : world) : option exn * world :=
  match envs with
  | [] => (None, w)
  | e :: envs' =>
      match iteration e w with
      | (Ok _, w') => while_true envs' w'
      | (Raised x, w') => (Some x, w')
      end
  end.

Inductive phase :=
| RUNNING
| TERMINATED (exit : outcome unit).

(** The [except] clauses of [consume_logs]. *)
Definition handlers (x : exn) : M unit :=
  match exn_class_of x with
  | KeyboardInterrupt => logging INFO (of_string "Consumer interrupted by user.")
  | _ =>
      logging ERROR (of_string "Unexpected error in consumer loop: " ++ exn_str x) ;;
      raise x
  end.

(** The [finally] clause of [consume_logs]. *)
Definition finalizer : M unit :=
  consumer_close ;;
  conn_close ;;
  logging INFO (of_string "Kafka consumer and PostgreSQL connection closed.").

(** Leaving the loop with the exception [x]: the handlers, then the
    [finally] clause. *)
Definition shutting_down (x : exn) (w : world) : phase * world :=
  let (r, w1) := handlers x w in
  match finalizer w1 with
  | (Ok _, w2) => (TERMINATED r, w2)
  | (Raised e, w2) => (TERMINATED (Raised e), w2)
  end.

(** The [try] statement of [consume_logs], from a world in which the
    connection is made and the consumer subscribed. *)
Definition ingestion (envs : list env_step) (w : world) : phase * world :=
  match while_true envs w with
  | (None, w') => (RUNNING, w')
  | (Some x, w') => shutting_down x w'
  end.

(** What the surroundings do at startup: the topic, the server and the
    database reached, the failure, if any, of connecting, what they do to
    the transaction of the table creation, and the failure, if any, of the
    subscription. *)
Record startup := Startup {
  KAFKA_TOPIC : str;
  database_server : postgres;
  database : gmap string table;
  connect_fault : option exn;
  create_fault : faults;
  subscribe_fault : option exn
}.

Definition create_postgres_connection (s : startup) : M unit :=
  reraising
    (server (connect_fault s) ;;
     set_conn (Connection (database_server s) (database s) false) ;;
     logging INFO (of_string "Connected to PostgreSQL database."))
    (fun e => logging ERROR (of_string "Failed to connect to PostgreSQL: " ++ exn_str e)).

Definition create_kafka_consumer (s : startup) : M unit :=
  reraising
    (server (subscribe_fault s) ;;
     (fun w => (Ok tt, World (conn w) true (calls w) (log w))) ;;
     logging INFO (of_string "Subscribed to Kafka topic: " ++ KAFKA_TOPIC s))
    (fun e => logging ERROR (of_string "Failed to create Kafka consumer: " ++ exn_str e)).

(** Before [consume_logs]: no connection yet to the server, no consumer,
    nothing logged. *)
Definition initial_world (srv : postgres) : world :=
  World (Connection srv ∅ true) false [] [].

Definition consume_logs (s : startup) (envs : list env_step) : phase * world :=
  match (create_postgres_connection s ;;
         create_log_table (create_fault s) ;;
         create_kafka_consumer s ;;
         logging INFO (of_string "Starting the Kafka consumer loop..."))
          (initial_world (database_server s)) with
  | (Ok _, w) => ingestion envs w
  | (Raised e, w) => (TERMINATED (Raised e), w)
  end.

(* ------------------------------------------------------------------ *)
(** ** Sample lines *)

(** The example line of the format. *)
Definition example_line : str := of_string
  "2024-03-01T10:00:00.000+00:00 | ACT-20240301T100000-1 | LOGIN | user_id=u1 username=alice ip_address=1.2.3.4 country=US region= city= coordinates= os=Linux browser=Chrome device_type=desktop | action=login status=success | session_id=s1 request_id=r1 trace_id=t1".

Definition example_record : log_data :=
  LogData (Some (of_string "2024-03-01T10:00:00.000+00:00"))
          (Some (of_string "ACT-20240301T100000-1"))
          (Some (of_string "LOGIN"))
          (Some (of_string "u1")) (Some (of_string "alice"))
          (Some (of_string "1.2.3.4")) (Some (of_string "US"))
          None None None
          (Some (of_string "Linux")) (Some (of_string "Chrome"))
          (Some (of_string "desktop")) (Some (of_string "login"))
          (Some (of_string "success")) (Some (of_string "s1"))
          (Some (of_string "r1")) (Some (of_string "t1")).

(** Field values, all populated. *)
Definition full_fields : fields :=
  Fields (of_string "2024-03-01T10:00:00.000+00:00")
         (of_string "ACT-20240301T100000-1") (of_string "LOGIN")
         (of_string "u1") (of_string "alice smith") (of_string "1.2.3.4")
         (of_string "US") (of_string "New York") (of_string "New York City")
         (of_string "40.7,-74.0") (of_string "Linux") (of_string "Chrome")
         (of_string "desktop") (of_string "login") (of_string "success")
         (of_string "s1") (of_string "r1") (of_string "t1").

(** Field values with every value empty that the pattern lets be empty. *)
Definition sparse_fields : fields :=
  Fields (of_string "2024-03-01T10:00:00.000+00:00")
         (of_string "ACT-20240301T100000-1") (of_string "LOGIN")
         (of_string "u1") [] (of_string "1.2.3.4")
         [] [] [] [] [] [] [] [] [] [] [] [].

(** The values of [full_fields] but for an empty [user_id]. *)
Definition no_user_id_fields : fields :=
  Fields (of_string "2024-03-01T10:00:00.000+00:00")
         (of_string "ACT-20240301T100000-1") (of_string "LOGIN")
         [] (of_string "alice smith") (of_string "1.2.3.4")
         (of_string "US") (of_string "New York") (of_string "New York City")
         (of_string "40.7,-74.0") (of_string "Linux") (of_string "Chrome")
         (of_string "desktop") (of_string "login") (of_string "success")
         (of_string "s1") (of_string "r1") (of_string "t1").

(** The values of [full_fields] but for a pipe inside [user_id]. *)
Definition pipe_user_id_fields : fields :=
  Fields (of_string "2024-03-01T10:00:00.000+00:00")
         (of_string "ACT-20240301T100000-1") (of_string "LOGIN")
         (of_string "u|1") (of_string "alice smith") (of_string "1.2.3.4")
         (of_string "US") (of_string "New York") (of_string "New York City")
         (of_string "40.7,-74.0") (of_string "Linux") (of_string "Chrome")
         (of_string "desktop") (of_string "login") (of_string "success")
         (of_string "s1") (of_string "r1") (of_string "t1").

Fixpoint str_eqb (a b : str) : bool :=
  match a, b with
  | [], [] => true
  | x :: a', y :: b' => (x =? y)%N && str_eqb a' b'
  | _, _ => false
  end.

(** The timestamp of the example line as a [TIMESTAMP]: microseconds from
    the start of the year 2000. *)
Definition example_stamp : stamp := 762602400000000%Z.

(** A server for the samples: it refuses a text with a NUL character, and
    takes the timestamp of the example line, and no other text, as a
    date. *)
Definition sample_server : postgres :=
  Postgres
    (fun s => if existsb (N.eqb 0) s
              then Some (Exn ValueError
                             (of_string "A string literal cannot contain NUL (0x00) characters."))
              else None)
    (fun s => if str_eqb s (of_string "2024-03-01T10:00:00.000+00:00")
              then Ok example_stamp
              else Raised (Exn DatabaseError
                               (of_string "invalid input syntax for type timestamp"))).

(** A connection to a database without tables. *)
Definition empty_store (srv : postgres) : connection := Connection srv ∅ false.

(** A world in the [RUNNING] state: the table exists, the consumer is
    subscribed. *)
Definition running_world : world :=
  World (Connection sample_server (create_if_not_exists ∅) false) true [] [].

Definition message_of (s : str) : message := Message None (Some 0%Z) (Ok s).

Definition write_error : exn :=
  Exn DatabaseError (of_string "server closed the connection unexpectedly").

(** The world once [consumer.poll] has been called. *)
Definition after_poll (w : world) : world :=
  World (conn w) (consumer_open w) (calls w ++ [CPoll]) (log w).

(** The world once the loop has been left on the exception [x] and the
    [finally] clause has run. *)
Definition after_shutdown (x : exn) (w : world) : world :=
  World (Connection (backend (conn w)) (catalog (conn w)) true) false
        (calls w ++ [CConsumerClose; CConnClose])
        (log w ++
         [ if is_Exception x
           then (ERROR, of_string "Unexpected error in consumer loop: " ++ exn_str x)
           else (INFO, of_string "Consumer interrupted by user.");
           (INFO, of_string "Kafka consumer and PostgreSQL connection closed.") ]).

(** How [consume_logs] ends when the exception [x] leaves the loop. *)
Definition exit_of (x : exn) : outcome unit :=
  if is_Exception x then Raised x else Ok tt.

Definition garbage_line : str := of_string "not a log line".

(** The example line without its first segment separator. *)
Definition missing_separator_line : str := of_string
  "2024-03-01T10:00:00.000+00:00 ACT-20240301T100000-1 | LOGIN | user_id=u1 username=alice ip_address=1.2.3.4 country=US region= city= coordinates= os=Linux browser=Chrome device_type=desktop | action=login status=success | session_id=s1 request_id=r1 trace_id=t1".

(** The example line without its [city] field. *)
Definition missing_field_line : str := of_string
  "2024-03-01T10:00:00.000+00:00 | ACT-20240301T100000-1 | LOGIN | user_id=u1 username=alice ip_address=1.2.3.4 country=US region= coordinates= os=Linux browser=Chrome device_type=desktop | action=login status=success | session_id=s1 request_id=r1 trace_id=t1".

(** The example line with a space for the [T] of its timestamp. *)
Definition bad_timestamp_line : str := of_string
  "2024-03-01 10:00:00.000+00:00 | ACT-20240301T100000-1 | LOGIN | user_id=u1 username=alice ip_address=1.2.3.4 country=US region= city= coordinates= os=Linux browser=Chrome device_type=desktop | action=login status=success | session_id=s1 request_id=r1 trace_id=t1".

Definition trailing_text : str := of_string " and then some | more".

Definition no_message_step : env_step := EnvStep (Ok None) no_faults.

Definition partition_eof_step : env_step :=
  EnvStep (Ok (Some (Message
                       (Some (KafkaError _PARTITION_EOF
                                         (of_string "Broker: No more messages")))
                       (Some 0%Z) (Ok []))))
          no_faults.

Definition transport_error : kafka_error :=
  KafkaError (-195) (of_string "Local: Broker transport failure").

Definition transport_error_step : env_step :=
  EnvStep (Ok (Some (Message (Some transport_error) None (Ok [])))) no_faults.

Definition garbage_step : env_step :=
  EnvStep (Ok (Some (message_of garbage_line))) no_faults.

Definition failing_insert_step : env_step :=
  EnvStep (Ok (Some (message_of example_line)))
          (Faults (Some write_error) false None false).

(** A turn in which the commit of the insert raises, the row being
    committed all the same. *)
Definition failing_commit_step : env_step :=
  EnvStep (Ok (Some (message_of example_line)))
          (Faults None false (Some write_error) true).

(** Field values in which [country] contains the key of [region]. *)
Definition undelimited_fields : fields :=
  Fields (of_string "2024-03-01T10:00:00.000+00:00")
         (of_string "ACT-20240301T100000-1") (of_string "LOGIN")
         (of_string "u1") (of_string "alice") (of_string "1.2.3.4")
         (of_string "US region=a") (of_string "b") (of_string "c")
         (of_string "1,2") (of_string "Linux") (of_string "Chrome")
         (of_string "desktop") (of_string "login") (of_string "success")
         (of_string "s1") (of_string "r1") (of_string "t1").

(** The same line, read with the shortest [country]. *)
Definition delimited_reading : fields :=
  Fields (of_string "2024-03-01T10:00:00.000+00:00")
         (of_string "ACT-20240301T100000-1") (of_string "LOGIN")
         (of_string "u1") (of_string "alice") (of_string "1.2.3.4")
         (of_string "US") (of_string "a region=b") (of_string "c")
         (of_string "1,2") (of_string "Linux") (of_string "Chrome")
         (of_string "desktop") (of_string "login") (of_string "success")
         (of_string "s1") (of_string "r1") (of_string "t1").

(* ------------------------------------------------------------------ *)
(** ** Further vocabulary *)

(** The values [f] with [v] for the [trace_id]. *)
Definition with_trace_id (f : fields) (v : str) : fields :=
  Fields (f_timestamp f) (f_log_id f) (f_event_type f) (f_user_id f)
         (f_username f) (f_ip_address f) (f_country f) (f_region f)
         (f_city f) (f_coordinates f) (f_os f) (f_browser f)
         (f_device_type f) (f_action f) (f_status f) (f_session_id f)
         (f_request_id f) v.

(** No text [r] matches contains the character [x]. *)
Fixpoint avoids (x : char) (r : re) : bool :=
  match r with
  | Lit l => forallb (fun c => negb (c =? x)%N) l
  | Rep cs _ _ _ => negb (cmem cs x)
  | Seq a b => avoids x a && avoids x b
  | Group _ a => avoids x a
  end.

(** A component of the tuple is not the empty string. *)
Definition not_empty_string (v : option str) : Prop := v <> Some [].

(** A capital ASCII letter or an underscore. *)
Definition upper_or_underscore (c : char) : bool :=
  ((65 <=? c)%N && (c <=? 90)%N) || (c =? 95)%N.

(** The server [srv] takes the tuple [d] as a row: its parameters are
    adapted, its timestamp is a date, of which this is the value, and its
    [NOT NULL] columns are filled. *)
Definition accepted (srv : postgres) (d : log_data) : option stamp :=
  match adapt srv (parameters d), timestamp d with
  | None, Some s =>
      match timestamp_in srv s with
      | Ok z => if not_null_ok d then Some z else None
      | Raised _ => None
      end
  | _, _ => None
  end.

(** The rows the tuples [ds] that [srv] takes make, keyed from [n] on. *)
Fixpoint number_rows (srv : postgres) (n : Z) (ds : list log_data) : list row :=
  match ds with
  | [] => []
  | d :: ds' =>
      match accepted srv d with
      | Some z => Row n z (text_columns d) :: number_rows srv (n + 1) ds'
      | None => number_rows srv n ds'
      end
  end.

(** The tuple a turn of the loop hands to [insert_log], if any. *)
Definition payload_record (e : env_step) : option log_data :=
  match polled e with
  | Ok (Some m) =>
      match error m, value m with
      | None, Ok s => fst (parse_log s)
      | _, _ => None
      end
  | _ => None
  end.

(** A turn in which nothing fails: the poll gives no message, an
    end-of-partition event, or a decodable record that does not parse or
    whose tuple the server [srv] takes, and neither the statement nor the
    commit of the insert fails. *)
Definition quiet (srv : postgres) (e : env_step) : bool :=
  match on_execute (store_fault e), on_commit (store_fault e), polled e with
  | None, None, Ok None => true
  | None, None, Ok (Some m) =>
      match error m, value m with
      | Some err, _ => (code err =? _PARTITION_EOF)%Z
      | None, Ok s =>
          match fst (parse_log s) with
          | Some d => match accepted srv d with Some _ => true | None => false end
          | None => true
          end
      | None, Raised _ => false
      end
  | _, _, _ => false
  end.

Definition is_poll (c : call) : bool :=
  match c with CPoll => true | _ => false end.

Definition is_close (c : call) : bool :=
  match c with CConsumerClose | CConnClose => true | _ => false end.

Definition interrupt : exn := Exn KeyboardInterrupt [].

Definition interrupt_step : env_step := EnvStep (Raised interrupt) no_faults.

Definition undecodable_step : env_step :=
  EnvStep (Ok (Some (Message None (Some 0%Z)
                             (Raised (Exn UnicodeDecodeError
                                          (of_string "invalid start byte"))))))
          no_faults.

Definition example_step : env_step :=
  EnvStep (Ok (Some (message_of example_line))) no_faults.

Definition healthy_startup : startup :=
  Startup (of_string "log_topic") sample_server ∅ None no_faults None.

Definition connection_refused : exn :=
  Exn DatabaseError (of_string "connection refused").

(** The tuples the turns [envs] hand to [insert_log], in order. *)
Definition records_of (envs : list env_step) : list log_data :=
  flat_map (fun e => match payload_record e with
                     | Some d => [d]
                     | None => []
                     end) envs.

(** The [logs] table once [create_log_table] has run on the tables [cat]. *)
Definition bootstrapped_logs (cat : gmap string table) : table :=
  match cat !! "logs" with
  | Some t => t
  | None => Table logs_schema 1 []
  end.

(** The row of the example line, under the key 1. *)
Definition example_row : row :=
  Row 1%Z example_stamp (text_columns example_record).

(** A world whose [logs] table holds one row. *)
Definition one_row_world : world :=
  World (Connection sample_server
                    {["logs" := Table logs_schema 2 [example_row]]} false)
        true [] [].

(** The number of polls, and of closings, among the calls [cs]. *)
Definition polls_in (cs : list call) : nat := length (List.filter is_poll cs).
Definition closes_in (cs : list call) : nat := length (List.filter is_close cs).

(** The table [t'] is [t] with rows added at the end. *)
Definition extends (t t' : table) : Prop :=
  schema t' = schema t /\ exists new, rows t' = rows t ++ new.

(** The [logs] table of the world [w'] is the one of [w] with rows added at
    the end. *)
Definition keeps_rows (w w' : world) : Prop :=
  forall t, catalog (conn w) !! "logs" = Some t ->
            exists t', catalog (conn w') !! "logs" = Some t' /\ extends t t'.

(** The log entries of a startup without failure. *)
Definition startup_log (s : startup) : list log_entry :=
  [ (INFO, of_string "Connected to PostgreSQL database.");
    (INFO, of_string "Created logs table (if it didn't exist).");
    (INFO, of_string "Subscribed to Kafka topic: " ++ KAFKA_TOPIC s);
    (INFO, of_string "Starting the Kafka consumer loop...") ].

Definition refused_startup : startup :=
  Startup (of_string "log_topic") sample_server ∅ (Some connection_refused)
          no_faults None.

(** The [logs] table of the world [w'] has the columns and the rows of the
    one of [w]. *)
Definition same_rows (w w' : world) : Prop :=
  forall t, catalog (conn w) !! "logs" = Some t ->
            exists t', catalog (conn w') !! "logs" = Some t' /\
                       schema t' = schema t /\ rows t' = rows t.

(** What [insert_log] logs, by its outcome. *)
Definition insert_log_entries (d : log_data) (o : outcome unit) : list log_entry :=
  match o with
  | Ok _ =>
      [(INFO, of_string "Inserted log into PostgreSQL: "
              ++ format_component (log_id d))]
  | Raised x =>
      if is_Exception x
      then [(ERROR, of_string "Failed to insert log into PostgreSQL: " ++ exn_str x)]
      else []
  end.

(** What [create_log_table] logs, by its outcome. *)
Definition create_log_entries (o : outcome unit) : list log_entry :=
  match o with
  | Ok _ => [(INFO, of_string "Created logs table (if it didn't exist).")]
  | Raised x =>
      if is_Exception x
      then [(ERROR, of_string "Failed to create logs table: " ++ exn_str x)]
      else []
  end.

(* ------------------------------------------------------------------ *)
(** ** The matcher against the grammar *)

Lemma strip_prefix_app l s : strip_prefix l (l ++ s) = Some s.
Proof.
  induction l as [|x l IH]; simpl; [reflexivity|].
  now rewrite N.eqb_refl.
Qed.

Lemma strip_prefix_Some l s t : strip_prefix l s = Some t -> s = l ++ t.
Proof.
  revert s; induction l as [|x l IH]; intros s H; simpl in *.
  - now inversion H.
  - destruct s as [|y s]; [discriminate|].
    destruct (N.eqb_spec x y); [|discriminate].
    subst. f_equal. now apply IH.
Qed.

Lemma span_ge cs u t : forallb (cmem cs) u = true -> length u <= span cs (u ++ t).
Proof.
  induction u as [|x u IH]; simpl; intros H; [lia|].
  apply andb_true_iff in H as [Hx Hu]. rewrite Hx. specialize (IH Hu). lia.
Qed.

Lemma span_firstn cs s k :
  k <= span cs s -> forallb (cmem cs) (firstn k s) = true /\ length (firstn k s) = k.
Proof.
  revert k; induction s as [|x s IH]; intros k Hk; simpl in *.
  - assert (k = 0) by lia. subst. now simpl.
  - destruct k as [|k]; [now simpl|].
    destruct (cmem cs x) eqn:Hx; [|lia].
    destruct (IH k ltac:(lia)) as [H1 H2]. simpl. rewrite Hx, H1, H2. auto.
Qed.

Lemma In_counts lo hi g n k :
  In k (counts lo hi g n) <-> lo <= k /\ k <= n /\ fits hi k.
Proof.
  unfold counts, fits.
  set (m := match hi with Some h => Nat.min n h | None => n end).
  assert (Hm : forall k, k <= m <-> k <= n /\ match hi with Some h => k <= h | None => True end).
  { intros j. subst m. destruct hi; lia. }
  destruct (Nat.ltb_spec m lo) as [Hlt|Hle].
  - simpl. split; [tauto|]. intros (H1 & H2 & H3).
    assert (k <= m) by (apply Hm; auto). lia.
  - assert (Hin : In k (seq lo (m - lo + 1)) <-> lo <= k /\ k <= m).
    { rewrite in_seq. lia. }
    destruct g; [rewrite <- in_rev|]; rewrite Hin, Hm; tauto.
Qed.

(** The matcher finds exactly the derivations of the prefixes of the subject. *)
Lemma run_spec r : forall s u c t,
  In (u, c, t) (run r s) <-> s = u ++ t /\ derives r u c.
Proof.
  induction r as [l|cs lo hi g|a IHa b IHb|name a IHa]; intros s u c t; simpl.
  - destruct (strip_prefix l s) as [t'|] eqn:E; simpl.
    + apply strip_prefix_Some in E. split.
      * intros [H|[]]. inversion H; subst. auto.
      * intros (H1 & H2 & H3). subst u c. left.
        rewrite E in H1. apply app_inv_head in H1. now subst.
    + split; [tauto|]. intros (H1 & H2 & H3). subst.
      rewrite strip_prefix_app in E. discriminate.
  - rewrite in_map_iff. split.
    + intros (k & Hk & Hin). inversion Hk; subst; clear Hk.
      apply In_counts in Hin as (H1 & H2 & H3).
      destruct (span_firstn cs s k H2) as [Hf Hl].
      rewrite firstn_skipn, Hl. auto.
    + intros (Hs & Hf & Hlo & Hhi & Hc). subst s c.
      exists (length u). split.
      * rewrite firstn_app, Nat.sub_diag, firstn_all. simpl. rewrite app_nil_r.
        rewrite skipn_app, Nat.sub_diag, skipn_all. now simpl.
      * apply In_counts. split; [assumption|]. split; [|assumption].
        now apply span_ge.
  - rewrite in_flat_map. split.
    + intros ([[u1 c1] t1] & H1 & H2).
      apply in_map_iff in H2 as ([[u2 c2] t2] & Heq & H2).
      inversion Heq; subst; clear Heq.
      apply IHa in H1 as [Hs Ha]. apply IHb in H2 as [Ht Hb]. subst.
      split; [now rewrite app_assoc|]. now exists u1, u2, c1, c2.
    + intros (Hs & u1 & u2 & c1 & c2 & Hu & Hc & Ha & Hb). subst.
      exists (u1, c1, u2 ++ t). split.
      * apply IHa. split; [now rewrite app_assoc|assumption].
      * apply in_map_iff. exists (u2, c2, t). split; [reflexivity|].
        apply IHb. auto.
  - rewrite in_map_iff. split.
    + intros ([[u1 c1] t1] & Heq & H1). inversion Heq; subst; clear Heq.
      apply IHa in H1 as [Hs Ha]. split; [assumption|]. now exists c1.
    + intros (Hs & c' & Hc & Ha). subst.
      exists (u, c', t). split; [reflexivity|]. apply IHa. auto.
Qed.

Lemma derives_groupless r : forall u c,
  groupless r = true -> derives r u c -> c = [].
Proof.
  induction r as [l|cs lo hi g|a IHa b IHb|name a IHa]; intros u c G H;
    simpl in *.
  - tauto.
  - tauto.
  - apply andb_true_iff in G as [Ga Gb].
    destruct H as (u1 & u2 & c1 & c2 & _ & Hc & Ha & Hb).
    rewrite (IHa _ _ Ga Ha), (IHb _ _ Gb Hb) in Hc. exact Hc.
  - discriminate.
Qed.

Lemma derives_lit_seq l b u c :
  derives b u c -> derives (Seq (Lit l) b) (l ++ u) c.
Proof. intros H. simpl. now exists l, u, [], c. Qed.

Lemma derives_group n a u : derives a u [] -> derives (Group n a) u [(n, u)].
Proof. intros H. simpl. now exists []. Qed.

Lemma derives_group_seq n a b u1 u2 c2 :
  derives a u1 [] -> derives b u2 c2 ->
  derives (Seq (Group n a) b) (u1 ++ u2) ((n, u1) :: c2).
Proof.
  intros Ha Hb. cbn [derives]. exists u1, u2, [(n, u1)], c2.
  repeat split; try assumption. now exists [].
Qed.

Ltac break :=
  repeat match goal with
         | H : exists _, _ |- _ => destruct H
         | H : _ /\ _ |- _ => destruct H
         end.

Ltac no_caps :=
  repeat match goal with
         | H : derives ?r ?u ?c |- _ =>
             is_var c;
             let E := fresh in
             assert (E : c = []) by (apply (derives_groupless r u c eq_refl H));
             subst c
         end.

(** A derivation of the log pattern is a line of the grammar, and the other
    way round. *)
Lemma derives_log_pattern u c :
  derives log_pattern u c <->
  exists f, u = render f /\ c = captures_of f /\ in_grammar f.
Proof.
  split.
  - intros H. unfold log_pattern, lit in H. cbn [derives] in H.
    break. no_caps. subst.
    eexists (Fields _ _ _ _ _ _ _ _ _ _ _ _ _ _ _ _ _ _).
    split; [reflexivity|]. split; [reflexivity|].
    constructor; assumption.
  - intros (f & Hu & Hc & G). subst. destruct G.
    unfold log_pattern, lit, render, captures_of.
    repeat first [ apply derives_lit_seq
                 | apply derives_group_seq; [assumption|]
                 | apply derives_group; assumption ].
Qed.

(* ------------------------------------------------------------------ *)
(** ** The first match *)

Lemma first_seq a b s u ca t v cb t' :
  first a s (u, ca, t) -> first b t (v, cb, t') ->
  first (Seq a b) s (u ++ v, ca ++ cb, t').
Proof.
  unfold first. simpl. intros Ha Hb.
  destruct (run a s) as [|x l]; simpl in *; [discriminate|].
  inversion Ha; subst; clear Ha.
  destruct (run b t) as [|y l']; simpl in *; [discriminate|].
  inversion Hb; subst; clear Hb. reflexivity.
Qed.

Lemma first_lit l s : first (Lit l) (l ++ s) (l, [], s).
Proof. unfold first. simpl. now rewrite strip_prefix_app. Qed.

Lemma first_lit_seq l b s u c t :
  first b s (u, c, t) -> first (Seq (Lit l) b) (l ++ s) (l ++ u, c, t).
Proof. intros H. exact (first_seq _ _ _ _ _ _ _ _ _ (first_lit l s) H). Qed.

Lemma first_group n a s u t :
  first a s (u, [], t) -> first (Group n a) s (u, [(n, u)], t).
Proof.
  unfold first. simpl. intros H.
  destruct (run a s) as [|x l]; simpl in *; [discriminate|].
  now inversion H.
Qed.

Lemma first_group_seq n a b s v t u c t' :
  first a s (v, [], t) -> first b t (u, c, t') ->
  first (Seq (Group n a) b) s (v ++ u, (n, v) :: c, t').
Proof.
  intros Ha Hb.
  exact (first_seq _ _ _ _ _ _ _ _ _ (first_group n _ _ _ _ Ha) Hb).
Qed.

Lemma span_stops cs v s :
  forallb (cmem cs) v = true -> stops cs s -> span cs (v ++ s) = length v.
Proof.
  intros Hv Hs. induction v as [|x v IH]; simpl in *.
  - destruct s as [|y s]; simpl in *; [reflexivity|now rewrite Hs].
  - apply andb_true_iff in Hv as [Hx Hv]. rewrite Hx. f_equal. auto.
Qed.

Lemma firstn_length_app (v s : str) : firstn (length v) (v ++ s) = v.
Proof.
  rewrite firstn_app, Nat.sub_diag, firstn_all. simpl. apply app_nil_r.
Qed.

Lemma skipn_length_app (v s : str) : skipn (length v) (v ++ s) = s.
Proof. rewrite skipn_app, Nat.sub_diag, skipn_all. reflexivity. Qed.

Lemma firstn_skipn_app (v s : str) :
  (firstn (length v) (v ++ s), @nil (string * str), skipn (length v) (v ++ s))
  = (v, [], s).
Proof.
  rewrite firstn_app, Nat.sub_diag, firstn_all. simpl. rewrite app_nil_r.
  rewrite skipn_app, Nat.sub_diag, skipn_all. reflexivity.
Qed.

Lemma hd_rev_seq lo k : hd_error (rev (seq lo (k + 1))) = Some (lo + k).
Proof. rewrite seq_app, rev_app_distr. reflexivity. Qed.

(** A greedy repetition first takes everything up to the character that
    stops it. *)
Lemma first_greedy cs lo v s :
  derives (Rep cs lo None true) v [] -> stops cs s ->
  first (Rep cs lo None true) (v ++ s) (v, [], s).
Proof.
  intros (Hv & Hlo & _ & _) Hs. unfold first. simpl.
  rewrite (span_stops _ _ _ Hv Hs). unfold counts.
  destruct (Nat.ltb_spec (length v) lo); [lia|].
  rewrite <- (firstn_skipn_app v s).
  set (g := fun k : nat => (firstn k (v ++ s), @nil (string * str), skipn k (v ++ s))).
  change (hd_error (List.map g (rev (seq lo (length v - lo + 1)))) = Some (g (length v))).
  destruct (rev (seq lo (length v - lo + 1))) as [|m l] eqn:E.
  - pose proof (hd_rev_seq lo (length v - lo)) as Hh. rewrite E in Hh. discriminate.
  - pose proof (hd_rev_seq lo (length v - lo)) as Hh. rewrite E in Hh.
    simpl in Hh. inversion Hh. simpl. do 2 f_equal. lia.
Qed.

(** A repetition of exactly [n] takes [n] characters. *)
Lemma first_exact cs n v s :
  derives (exactly cs n) v [] ->
  first (exactly cs n) (v ++ s) (v, [], s).
Proof.
  intros (Hv & Hlo & Hhi & _). simpl in Hhi. unfold first, exactly. simpl.
  pose proof (span_ge cs v s Hv) as Hsp. unfold counts.
  assert (Hmin : Nat.min (span cs (v ++ s)) n = n) by lia. rewrite Hmin.
  destruct (Nat.ltb_spec n n); [lia|].
  replace (n - n + 1) with 1 by lia. simpl.
  assert (Hn : n = length v) by lia. rewrite Hn.
  exact (f_equal Some (firstn_skipn_app v s)).
Qed.

Lemma flat_map_nil {A B} (F : A -> list B) l :
  (forall x, In x l -> F x = []) -> flat_map F l = [].
Proof.
  induction l as [|x l IH]; simpl; intros H; [reflexivity|].
  rewrite (H x (or_introl eq_refl)). simpl. apply IH. intros y Hy. apply H. now right.
Qed.

(** A lazy repetition followed by [b] stops at the first place from which
    [b] matches. *)
Lemma first_lazy_seq n cs b v s u c t :
  derives (star_lazy cs) v [] ->
  (forall k, k < length v -> run b (skipn k (v ++ s)) = []) ->
  first b s (u, c, t) ->
  first (Seq (Group n (star_lazy cs)) b) (v ++ s) (v ++ u, (n, v) :: c, t).
Proof.
  intros (Hv & _) Hearly Hb. unfold first, star_lazy in *. simpl.
  pose proof (span_ge cs v s Hv) as Hsp. unfold counts. simpl.
  rewrite Nat.sub_0_r.
  replace (span cs (v ++ s) + 1)
    with (length v + (1 + (span cs (v ++ s) - length v))) by lia.
  rewrite seq_app. rewrite !map_app, flat_map_app.
  rewrite flat_map_nil.
  - simpl. rewrite !firstn_length_app, !skipn_length_app.
    destruct (run b s) as [|y l]; simpl in *; [discriminate|].
    inversion Hb; subst. reflexivity.
  - intros x Hx. apply in_map_iff in Hx as (y & <- & Hy).
    apply in_map_iff in Hy as (k & <- & Hk). apply in_seq in Hk.
    rewrite Hearly by lia. reflexivity.
Qed.

Lemma run_lit2_nil l1 l2 r x :
  strip_prefix (l1 ++ l2) x = None -> run (Seq (Lit l1) (Seq (Lit l2) r)) x = [].
Proof.
  intros H. simpl.
  destruct (strip_prefix l1 x) as [t|] eqn:E1; simpl; [|reflexivity].
  destruct (strip_prefix l2 t) as [t'|] eqn:E2; simpl; [|reflexivity].
  apply strip_prefix_Some in E1, E2. subst.
  rewrite app_assoc, strip_prefix_app in H. discriminate.
Qed.

Lemma strip_prefix_inside l : forall w sp z r,
  strip_prefix l (w ++ sp :: z) = Some r -> ~ In sp l ->
  strip_prefix l w <> None.
Proof.
  induction l as [|y l IH]; intros w sp z r H Hn; simpl in *; [discriminate|].
  destruct w as [|x w]; simpl in *.
  - destruct (N.eqb_spec y sp); [subst; tauto|discriminate].
  - destruct (y =? x)%N; [|discriminate]. eapply IH; eauto.
Qed.

(** A key that starts with the only space it contains cannot begin inside
    a value that does not contain it. *)
Lemma no_early_infix sp l' v s :
  is_infix (sp :: l') v = false -> ~ In sp l' ->
  forall k, k < length v ->
    strip_prefix (sp :: l') (skipn k (v ++ (sp :: l') ++ s)) = None.
Proof.
  intros Hi Hn. induction v as [|x v IH]; intros k Hk; [simpl in Hk; lia|].
  cbn [is_infix] in Hi.
  destruct (strip_prefix (sp :: l') (x :: v)) eqn:E; [discriminate|].
  destruct k as [|k].
  - rewrite skipn_O.
    change ((x :: v) ++ (sp :: l') ++ s) with (x :: (v ++ sp :: (l' ++ s))).
    cbn [strip_prefix] in *. destruct (sp =? x)%N; [|reflexivity].
    destruct (strip_prefix l' (v ++ sp :: l' ++ s)) eqn:E'; [|reflexivity].
    exfalso. exact (strip_prefix_inside _ _ _ _ _ E' Hn E).
  - change ((x :: v) ++ (sp :: l') ++ s) with (x :: (v ++ (sp :: l') ++ s)).
    rewrite skipn_cons. apply IH; [assumption|]. simpl in Hk. lia.
Qed.

Lemma cmem_nopipe c : cmem cs_nopipe c = negb (c =? 124)%N.
Proof. unfold cmem. simpl. now rewrite orb_false_r. Qed.

(** The segment separator cannot begin inside a value without a pipe. *)
Lemma no_early_pipe l'' v s :
  forallb (cmem cs_nopipe) v = true ->
  forall k, k < length v ->
    strip_prefix (32 :: 124 :: l'')%N (skipn k (v ++ (32 :: 124 :: l'')%N ++ s)) = None.
Proof.
  intros Hv. induction v as [|x v IH]; intros k Hk; [simpl in Hk; lia|].
  cbn [forallb] in Hv. apply andb_true_iff in Hv as [Hx Hv].
  destruct k as [|k].
  - rewrite skipn_O. cbn [app strip_prefix]. destruct (32 =? x)%N; [|reflexivity].
    destruct v as [|y v]; cbn [app strip_prefix]; [reflexivity|].
    cbn [forallb] in Hv. apply andb_true_iff in Hv as [Hy _].
    rewrite cmem_nopipe in Hy. rewrite N.eqb_sym.
    destruct (y =? 124)%N; [discriminate|reflexivity].
  - change ((x :: v) ++ (32 :: 124 :: l'')%N ++ s)
      with (x :: (v ++ (32 :: 124 :: l'')%N ++ s)).
    rewrite skipn_cons. apply IH; [assumption|]. simpl in Hk. lia.
Qed.

Lemma first_plain_seq a b s v t u c t' :
  first a s (v, [], t) -> first b t (u, c, t') ->
  first (Seq a b) s (v ++ u, c, t').
Proof. intros Ha Hb. exact (first_seq _ _ _ _ _ _ _ _ _ Ha Hb). Qed.

Lemma early_key key v r rest :
  is_infix (of_string " " ++ of_string key) v = false ->
  forallb (fun c => negb (c =? 32)%N) (of_string key) = true ->
  forall k, k < length v ->
    run (Seq (Lit (of_string " ")) (Seq (Lit (of_string key)) r))
        (skipn k (v ++ of_string " " ++ of_string key ++ rest)) = [].
Proof.
  intros Hi Hk k Hlt. apply run_lit2_nil.
  apply (no_early_infix 32%N (of_string key) v rest Hi); [|assumption].
  intros Hin. rewrite forallb_forall in Hk. specialize (Hk _ Hin).
  now rewrite N.eqb_refl in Hk.
Qed.

Lemma early_separator key v r rest :
  forallb (cmem cs_nopipe) v = true ->
  forall k, k < length v ->
    run (Seq (Lit (of_string " | ")) (Seq (Lit (of_string key)) r))
        (skipn k (v ++ of_string " | " ++ of_string key ++ rest)) = [].
Proof.
  intros Hv k Hlt. apply run_lit2_nil.
  exact (no_early_pipe (32%N :: of_string key) v rest Hv k Hlt).
Qed.

Lemma sign_stops sg s : derives (exactly cs_sign 1) sg [] -> stops cs_digit (sg ++ s).
Proof.
  intros (Hv & Hlo & _). destruct sg as [|x sg]; [simpl in Hlo; lia|].
  simpl in Hv. apply andb_true_iff in Hv as [Hx _].
  unfold stops. simpl. unfold cmem in Hx. simpl in Hx.
  rewrite orb_false_r in Hx. apply orb_true_iff in Hx as [Hx|Hx];
    apply N.eqb_eq in Hx; subst x; reflexivity.
Qed.

Lemma first_timestamp ts s :
  derives timestamp_re ts [] -> first timestamp_re (ts ++ s) (ts, [], s).
Proof.
  intros H. unfold timestamp_re, lit in *. cbn [derives] in H.
  break. no_caps. subst. rewrite <- !app_assoc.
  repeat first
    [ apply first_lit_seq
    | eapply first_plain_seq;
      [ first [ apply first_exact; assumption
              | apply first_greedy; [assumption | apply sign_stops; assumption] ]
      | ]
    | apply first_exact; assumption ].
Qed.

Lemma first_log_id v s :
  derives log_id_re v [] -> stops cs_digit s ->
  first log_id_re (v ++ s) (v, [], s).
Proof.
  intros H Hs. unfold log_id_re, lit in *. cbn [derives] in H.
  break. no_caps. subst. rewrite <- !app_assoc.
  repeat first
    [ apply first_lit_seq
    | eapply first_plain_seq; [ apply first_exact; assumption | ]
    | apply first_greedy; assumption ].
Qed.

Ltac first_step :=
  first
    [ apply first_lit_seq
    | eapply first_group_seq; [ apply first_timestamp; assumption | ]
    | eapply first_group_seq;
      [ apply first_log_id; [assumption | reflexivity] | ]
    | eapply first_group_seq;
      [ apply first_greedy; [assumption | reflexivity] | ]
    | apply first_lazy_seq;
      [ assumption
      | first [ apply early_key; [assumption | reflexivity]
              | apply early_separator;
                match goal with H : derives _ _ _ |- _ => exact (proj1 H) end ]
      | ] ].

(** On a line of the grammar the engine's first match reads each field up to
    its boundary; text after the line is left over when it cannot extend
    the last field. *)
Lemma first_log_pattern f t :
  grammatical f -> stops cs_nopipe_nospace t ->
  first log_pattern (render f ++ t) (render f, captures_of f, t).
Proof.
  intros [G D] Ht. destruct G, D.
  unfold log_pattern, lit, render, captures_of. rewrite <- !app_assoc.
  repeat first_step.
  apply first_group. apply first_greedy; assumption.
Qed.

Lemma replace_empty_some v :
  replace_empty_with_none (Some v) = absent_if_empty v.
Proof. now destruct v. Qed.

(** What [parse_log] makes of a match that captured the values [f]. *)
Lemma parse_log_of_run f u t l s :
  run log_pattern s = (u, captures_of f, t) :: l ->
  parse_log s = (Some (normalized f), []).
Proof.
  intros H. unfold parse_log, re_match. rewrite H.
  unfold group, captures_of, groups. cbn [assoc String.eqb Ascii.eqb Bool.eqb].
  now rewrite !replace_empty_some.
Qed.

Lemma parse_log_of_first f u t s :
  first log_pattern s (u, captures_of f, t) ->
  parse_log s = (Some (normalized f), []).
Proof.
  unfold first. intros H.
  destruct (run log_pattern s) as [|x l] eqn:E; [discriminate|].
  simpl in H. inversion H; subst. exact (parse_log_of_run _ _ _ _ _ E).
Qed.

(** [parse_log] on a line of the grammar: the values of the line, the empty
    ones absent; nothing is logged. *)
Lemma parse_log_render f t :
  grammatical f -> stops cs_nopipe_nospace t ->
  parse_log (render f ++ t) = (Some (normalized f), []).
Proof.
  intros G Ht. exact (parse_log_of_first _ _ _ _ (first_log_pattern f t G Ht)).
Qed.

(** Soundness of [parse_log]: a record comes from a line of the grammar at
    the start of the message, whose values it holds. *)
Lemma parse_log_sound s r :
  fst (parse_log s) = Some r ->
  exists f t, s = render f ++ t /\ in_grammar f /\ r = normalized f /\
              parse_log s = (Some r, []).
Proof.
  intros H.
  destruct (run log_pattern s) as [|[[u c] t] l] eqn:E.
  - unfold parse_log, re_match in H. rewrite E in H. discriminate.
  - assert (Hin : In (u, c, t) (run log_pattern s)) by (rewrite E; now left).
    apply run_spec in Hin as [Hs Hd].
    apply derives_log_pattern in Hd as (f & Hu & Hc & G). subst u c.
    rewrite (parse_log_of_run _ _ _ _ _ E) in H |- *. simpl in H.
    inversion H; subst. now exists f, t.
Qed.

(** Completeness of [parse_log]: a message that starts with a line of the
    grammar is parsed into some record. *)
Lemma parse_log_complete f t :
  in_grammar f -> exists r, parse_log (render f ++ t) = (Some r, []).
Proof.
  intros G.
  assert (Hin : In (render f, captures_of f, t) (run log_pattern (render f ++ t))).
  { apply run_spec. split; [reflexivity|]. apply derives_log_pattern. now exists f. }
  destruct (run log_pattern (render f ++ t)) as [|[[u c] t'] l] eqn:E; [destruct Hin|].
  assert (Hin' : In (u, c, t') (run log_pattern (render f ++ t))) by (rewrite E; now left).
  apply run_spec in Hin' as [Hs Hd].
  apply derives_log_pattern in Hd as (f' & Hu & Hc & G'). subst u c.
  exists (normalized f'). exact (parse_log_of_run _ _ _ _ _ E).
Qed.

(* ------------------------------------------------------------------ *)
(** ** Facts about the fields of a parsed line *)

Lemma cmem_nospace c : cmem cs_nospace c = negb (uni_space c).
Proof. unfold cmem. simpl. now rewrite orb_false_r. Qed.

Lemma cmem_nopipe_nospace c :
  cmem cs_nopipe_nospace c = negb (c =? 124)%N && negb (uni_space c).
Proof.
  change (cmem cs_nopipe_nospace c)
    with (xorb true ((c =? 124)%N || (uni_space c || false))).
  now destruct (c =? 124)%N, (uni_space c).
Qed.

Lemma derives_nospace lo v :
  derives (Rep cs_nospace lo None true) v [] -> no_space v.
Proof.
  intros (Hv & _). unfold no_space. rewrite forallb_forall in *.
  intros c Hc. rewrite <- cmem_nospace. auto.
Qed.

Lemma derives_nopipe_nospace lo v :
  derives (Rep cs_nopipe_nospace lo None true) v [] -> no_space v /\ no_pipe v.
Proof.
  intros (Hv & _). unfold no_space, no_pipe. rewrite !forallb_forall in *.
  split; intros c Hc; specialize (Hv c Hc); rewrite cmem_nopipe_nospace in Hv;
    apply andb_true_iff in Hv; tauto.
Qed.

Lemma derives_plus_nonempty cs v : derives (plus cs) v [] -> v <> [].
Proof. intros (_ & Hlo & _) ->. simpl in Hlo. lia. Qed.

Lemma derives_timestamp_nonempty v : derives timestamp_re v [] -> v <> [].
Proof.
  unfold timestamp_re. cbn [derives]. intros H. break. subst.
  match goal with H : derives (exactly cs_digit 4) ?x _ |- _ =>
    destruct H as (_ & Hlo & _); destruct x; [simpl in Hlo; lia|discriminate] end.
Qed.

Lemma derives_log_id_nonempty v : derives log_id_re v [] -> v <> [].
Proof.
  unfold log_id_re, lit. cbn [derives]. intros H. break. subst. discriminate.
Qed.

Lemma absent_if_empty_Some v w : absent_if_empty v = Some w -> w = v.
Proof. destruct v; simpl; intros H; now inversion H. Qed.

Lemma absent_if_empty_nonempty v : v <> [] -> absent_if_empty v = Some v.
Proof. now destruct v. Qed.

Lemma normalized_populated f : populated f -> normalized f = verbatim f.
Proof.
  unfold populated. intros H. break. unfold normalized, verbatim.
  now rewrite !absent_if_empty_nonempty by assumption.
Qed.

(** [parse_log] either returns a tuple and logs nothing, or returns [None]
    and logs the warning. *)
Lemma parse_log_cases s :
  (exists d, parse_log s = (Some d, [])) \/
  parse_log s = (None, [(WARNING, of_string "Log format is invalid: " ++ s)]).
Proof.
  unfold parse_log. destruct (re_match log_pattern s); [left|right]; eauto.
Qed.

Lemma parse_log_None s :
  fst (parse_log s) = None ->
  parse_log s = (None, [(WARNING, of_string "Log format is invalid: " ++ s)]).
Proof.
  destruct (parse_log_cases s) as [[d H]|H]; rewrite H; [discriminate|reflexivity].
Qed.

Lemma parse_log_Some s d :
  fst (parse_log s) = Some d -> parse_log s = (Some d, []).
Proof.
  destruct (parse_log_cases s) as [[d' H]|H]; rewrite H; simpl; intros E;
    now inversion E.
Qed.

Lemma derives_of_run r u c : In (u, c, []) (run r u) -> derives r u c.
Proof. intros H. now apply run_spec in H. Qed.

Ltac find_in := first [ left; reflexivity | right; find_in ].
Ltac by_run := apply derives_of_run; vm_compute; find_in.

Lemma full_fields_grammatical : grammatical full_fields.
Proof. split; constructor; first [by_run | reflexivity]. Qed.

Lemma full_fields_populated : populated full_fields.
Proof. unfold populated. repeat split; discriminate. Qed.

Lemma sparse_fields_grammatical : grammatical sparse_fields.
Proof. split; constructor; first [by_run | reflexivity]. Qed.

(* ------------------------------------------------------------------ *)
(** ** One turn of the loop *)

Ltac unfold_m :=
  unfold iteration, poll, decode, parse_log_m, insert_log, create_log_table,
    reraising, cursor, server, execute_insert, refused, commit, get_conn,
    set_conn, set_catalog, called, logging, bind, ret, raise, after_poll in *.

Lemma iteration_no_message e w :
  polled e = Ok None -> iteration e w = (Ok tt, after_poll w).
Proof. intros H. unfold_m. simpl. rewrite H. reflexivity. Qed.

Lemma iteration_informational e w m err :
  polled e = Ok (Some m) -> error m = Some err -> code err = _PARTITION_EOF ->
  iteration e w =
  (Ok tt,
   World (conn w) (consumer_open w) (calls w ++ [CPoll])
         (log w ++ [ (ERROR, of_string "Kafka error: " ++ error_str err);
                     (INFO, of_string "End of partition reached: "
                            ++ format_partition (partition m)) ])).
Proof.
  intros H1 H2 H3. unfold_m. simpl. rewrite H1, H2, H3. simpl.
  now rewrite <- app_assoc.
Qed.

Lemma iteration_fatal e w m err :
  polled e = Ok (Some m) -> error m = Some err -> code err <> _PARTITION_EOF ->
  iteration e w =
  (Raised (Exn KafkaException (error_str err)),
   World (conn w) (consumer_open w) (calls w ++ [CPoll])
         (log w ++ [ (ERROR, of_string "Kafka error: " ++ error_str err) ])).
Proof.
  intros H1 H2 H3. unfold_m. simpl. rewrite H1, H2.
  apply Z.eqb_neq in H3. rewrite H3. reflexivity.
Qed.

Lemma iteration_parse_failure e w m s :
  polled e = Ok (Some m) -> error m = None -> value m = Ok s ->
  fst (parse_log s) = None ->
  iteration e w =
  (Ok tt,
   World (conn w) (consumer_open w) (calls w ++ [CPoll])
         (log w ++ [ (WARNING, of_string "Log format is invalid: " ++ s) ])).
Proof.
  intros H1 H2 H3 H4. apply parse_log_None in H4.
  unfold_m. simpl. rewrite H1, H2, H3, H4. reflexivity.
Qed.

Lemma iteration_parsed e w m s d :
  polled e = Ok (Some m) -> error m = None -> value m = Ok s ->
  fst (parse_log s) = Some d ->
  iteration e w = insert_log (store_fault e) d (after_poll w).
Proof.
  intros H1 H2 H3 H4. apply parse_log_Some in H4.
  unfold iteration, poll, decode, parse_log_m, called, logging, bind, ret.
  simpl. rewrite H1, H2, H3, H4. reflexivity.
Qed.

Lemma keeps_rows_same w w' : same_rows w w' -> keeps_rows w w'.
Proof.
  intros H t Ht. destruct (H t Ht) as (t' & Ht' & Hs & Hr).
  exists t'. split; [assumption|]. split; [assumption|].
  exists []. now rewrite app_nil_r.
Qed.

Lemma same_rows_conn w w' : catalog (conn w') = catalog (conn w) -> same_rows w w'.
Proof. intros E t Ht. exists t. rewrite E. auto. Qed.

Lemma same_rows_drawn w w' t :
  catalog (conn w) !! "logs" = Some t ->
  catalog (conn w') = <["logs" := drawn_key t]> (catalog (conn w)) ->
  same_rows w w'.
Proof.
  intros Ht E t0 Ht0. rewrite Ht in Ht0. inversion Ht0; subst.
  exists (drawn_key t0). rewrite E, lookup_insert_eq. auto.
Qed.

Lemma keeps_rows_with_row w w' t r :
  catalog (conn w) !! "logs" = Some t ->
  catalog (conn w') = <["logs" := with_row t r]> (catalog (conn w)) ->
  keeps_rows w w'.
Proof.
  intros Ht E t0 Ht0. rewrite Ht in Ht0. inversion Ht0; subst.
  exists (with_row t0 r). rewrite E, lookup_insert_eq.
  split; [reflexivity|]. split; [reflexivity|]. now exists [r].
Qed.

Ltac split_cases H :=
  repeat match type of H with
         | context [match ?t with _ => _ end] =>
             lazymatch t with
             | context [match _ with _ => _ end] => fail
             | _ => let E := fresh "E" in destruct t eqn:E; simpl in H
             end
         end.

(** What [insert_log] does, whatever its outcome: one statement sent at
    most, then one commit at most; rows added at the end of the table at
    most, and none unless the commit was called; one log entry. *)
Lemma insert_log_effect f d w o w' :
  insert_log f d w = (o, w') ->
  consumer_open w' = consumer_open w /\
  closed (conn w') = closed (conn w) /\
  backend (conn w') = backend (conn w) /\
  (exists sent,
      calls w' = calls w ++ sent /\
      (sent = [] \/ sent = [CExecuteInsert d] \/
       sent = [CExecuteInsert d; CCommit]) /\
      (closed (conn w) = false -> sent <> []) /\
      (o = Ok tt -> sent = [CExecuteInsert d; CCommit]) /\
      (sent <> [CExecuteInsert d; CCommit] -> same_rows w w')) /\
  keeps_rows w w' /\
  log w' = log w ++ insert_log_entries d o.
Proof.
  intros H. unfold_m. simpl in H. split_cases H;
    inversion H; subst; clear H; simpl;
    repeat match goal with
           | H : is_Exception _ = _ |- _ => rewrite H
           | H : closed _ = _ |- _ => rewrite H
           end;
    (split; [reflexivity|]); (split; [reflexivity|]); (split; [reflexivity|]);
    (split;
     [ first
         [ exists [];
           split; [now rewrite app_nil_r|];
           split; [now left|];
           split; [discriminate|];
           split; [discriminate|]; intros _
         | exists [CExecuteInsert d];
           split; [reflexivity|];
           split; [now right; left|];
           split; [discriminate|];
           split; [discriminate|]; intros _
         | exists [CExecuteInsert d; CCommit];
           split; [now rewrite <- app_assoc|];
           split; [now right; right|];
           split; [discriminate|];
           split; [reflexivity|]; intros Hn; now contradiction Hn ];
       first [ now apply same_rows_conn
             | eapply same_rows_drawn; [eassumption|reflexivity] ]
     | ]);
    (split;
     [ first [ apply keeps_rows_same; now apply same_rows_conn
             | apply keeps_rows_same; eapply same_rows_drawn;
               [eassumption|reflexivity]
             | eapply keeps_rows_with_row; [eassumption|reflexivity] ]
     | try (now rewrite app_nil_r); reflexivity ]).
Qed.

Lemma shutting_down_eq x w :
  shutting_down x w = (TERMINATED (exit_of x), after_shutdown x w).
Proof.
  unfold shutting_down, handlers, finalizer, consumer_close, conn_close,
    exit_of, after_shutdown, is_Exception.
  unfold_m. destruct (exn_class_of x); simpl; now rewrite <- !app_assoc.
Qed.

Lemma ingestion_continue e rest w w' :
  iteration e w = (Ok tt, w') -> ingestion (e :: rest) w = ingestion rest w'.
Proof. intros H. unfold ingestion. simpl. now rewrite H. Qed.

Lemma ingestion_raised e rest w x w' :
  iteration e w = (Raised x, w') ->
  ingestion (e :: rest) w = (TERMINATED (exit_of x), after_shutdown x w').
Proof.
  intros H. unfold ingestion. simpl. rewrite H. apply shutting_down_eq.
Qed.

(** Whatever the surroundings do, a turn of the loop starts by polling. *)
Lemma iteration_polls_first e w :
  exists tail, calls (snd (iteration e w)) = calls w ++ CPoll :: tail.
Proof.
  destruct (polled e) as [[m|]|x] eqn:Hp.
  - destruct (error m) as [err|] eqn:He.
    + destruct (Z.eq_dec (code err) _PARTITION_EOF) as [Hc|Hc].
      * rewrite (iteration_informational _ _ _ _ Hp He Hc). simpl. now exists [].
      * rewrite (iteration_fatal _ _ _ _ Hp He Hc). simpl. now exists [].
    + destruct (value m) as [s|x] eqn:Hv.
      * destruct (fst (parse_log s)) as [d|] eqn:Hd.
        -- rewrite (iteration_parsed _ _ _ _ _ Hp He Hv Hd).
           destruct (insert_log (store_fault e) d (after_poll w)) as [o w1] eqn:E.
           apply insert_log_effect in E as (_ & _ & _ & (sent & Ht & _) & _).
           simpl in *. rewrite Ht, <- app_assoc. now exists sent.
        -- rewrite (iteration_parse_failure _ _ _ _ Hp He Hv Hd). simpl.
           now exists [].
      * unfold_m. simpl. rewrite Hp, He, Hv. simpl. now exists [].
  - rewrite (iteration_no_message _ _ Hp). simpl. now exists [].
  - unfold_m. simpl. rewrite Hp. simpl. now exists [].
Qed.

(* ------------------------------------------------------------------ *)
(** ** The parser *)

(** C1. For every line of the grammar of the log format whose eighteen
    fields are all populated (each value in the language of its field, a
    value that may contain spaces running up to the key that follows it, as
    the non-greedy capture of the format prescribes), [parse_log] returns
    the tuple whose components are the field values exactly as written in
    the line, in order (and logs nothing); the example line parses to
    [example_record], whose [region], [city] and [coordinates] are absent
    and whose other components are as written. *)
Theorem parse_log_verbatim :
  (forall f, grammatical f -> populated f ->
             parse_log (render f) = (Some (verbatim f), [])) /\
  parse_log example_line = (Some example_record, []).
Proof.
  split.
  - intros f G P. rewrite <- (normalized_populated f P).
    rewrite <- (app_nil_r (render f)) at 1.
    apply parse_log_render; [assumption|exact I].
  - vm_compute. reflexivity.
Qed.

Lemma parse_log_verbatim_witness :
  parse_log (render full_fields) = (Some (verbatim full_fields), []).
Proof.
  exact (proj1 parse_log_verbatim full_fields
               full_fields_grammatical full_fields_populated).
Defined.

(** Where a value contains the key that follows it, the non-greedy capture
    ends the value there: the line is read with the shorter value. *)
Example undelimited_value_split :
  is_infix (of_string " region=") (f_country undelimited_fields) = true /\
  fst (parse_log (render undelimited_fields)) =
  Some (verbatim delimited_reading).
Proof. split; vm_compute; reflexivity. Qed.

(** C2, as the claim states it, fails: a line that is well formed but for
    an empty [user_id] is rejected. *)
Lemma empty_user_id_rejected :
  parse_log (render no_user_id_fields) =
  (None, [(WARNING, of_string "Log format is invalid: "
                    ++ render no_user_id_fields)]).
Proof. vm_compute. reflexivity. Qed.

(** C2, amended. For every field except [timestamp], [log_id],
    [event_type], [user_id] and [ip_address], a line of the grammar in
    which the value of that field is empty is parsed, and that component of
    the tuple is absent. *)
Theorem empty_value_absent f :
  grammatical f ->
  exists r,
    parse_log (render f) = (Some r, []) /\
    (f_username f = [] -> username r = None) /\
    (f_country f = [] -> country r = None) /\
    (f_region f = [] -> region r = None) /\
    (f_city f = [] -> city r = None) /\
    (f_coordinates f = [] -> coordinates r = None) /\
    (f_os f = [] -> os r = None) /\
    (f_browser f = [] -> browser r = None) /\
    (f_device_type f = [] -> device_type r = None) /\
    (f_action f = [] -> action r = None) /\
    (f_status f = [] -> status r = None) /\
    (f_session_id f = [] -> session_id r = None) /\
    (f_request_id f = [] -> request_id r = None) /\
    (f_trace_id f = [] -> trace_id r = None).
Proof.
  intros G. exists (normalized f). split.
  - rewrite <- (app_nil_r (render f)).
    apply parse_log_render; [assumption|exact I].
  - repeat split; intros E; simpl; now rewrite E.
Qed.

Lemma empty_value_absent_witness :
  exists r,
    parse_log (render sparse_fields) = (Some r, []) /\
    (f_username sparse_fields = [] -> username r = None) /\
    (f_country sparse_fields = [] -> country r = None) /\
    (f_region sparse_fields = [] -> region r = None) /\
    (f_city sparse_fields = [] -> city r = None) /\
    (f_coordinates sparse_fields = [] -> coordinates r = None) /\
    (f_os sparse_fields = [] -> os r = None) /\
    (f_browser sparse_fields = [] -> browser r = None) /\
    (f_device_type sparse_fields = [] -> device_type r = None) /\
    (f_action sparse_fields = [] -> action r = None) /\
    (f_status sparse_fields = [] -> status r = None) /\
    (f_session_id sparse_fields = [] -> session_id r = None) /\
    (f_request_id sparse_fields = [] -> request_id r = None) /\
    (f_trace_id sparse_fields = [] -> trace_id r = None).
Proof. exact (empty_value_absent sparse_fields sparse_fields_grammatical). Defined.

(** C3, as the claim states it, fails: the example line followed by
    trailing text is parsed, into the record of the example line. *)
Lemma trailing_text_accepted :
  parse_log (example_line ++ trailing_text) = (Some example_record, []).
Proof. vm_compute. reflexivity. Qed.

(** C3, amended. [parse_log] matches the grammar from position 0 but not
    up to the end of the line: it returns a tuple exactly when some prefix
    of the line is a line of the grammar, so that a line of the grammar
    followed by any trailing characters still yields a tuple, never a
    failure. *)
Theorem prefix_match_accepted :
  (forall s, (exists r, fst (parse_log s) = Some r) <->
             (exists f t, in_grammar f /\ s = render f ++ t)) /\
  (forall f extra, in_grammar f ->
                   exists r, parse_log (render f ++ extra) = (Some r, [])).
Proof.
  split.
  - intros s. split.
    + intros [r H]. apply parse_log_sound in H as (f & t & Hs & G & _).
      now exists f, t.
    + intros (f & t & G & ->). destruct (parse_log_complete f t G) as [r H].
      exists r. now rewrite H.
  - intros f extra G. exact (parse_log_complete f extra G).
Qed.

Lemma prefix_match_accepted_witness :
  exists r, parse_log (render full_fields ++ trailing_text) = (Some r, []).
Proof.
  exact (proj2 prefix_match_accepted full_fields trailing_text
               (proj1 full_fields_grammatical)).
Defined.

(** C4, as the claim states it, fails: a pipe inside the [user_id] value
    is accepted and kept. *)
Lemma pipe_in_user_id_accepted :
  parse_log (render pipe_user_id_fields) =
  (Some (verbatim pipe_user_id_fields), []).
Proof. vm_compute. reflexivity. Qed.

(** C4, amended. No tuple [parse_log] returns has a whitespace character in
    its [user_id] or [ip_address] (a pipe is accepted there), nor a
    whitespace or pipe character in its [action], [status], [session_id],
    [request_id] or [trace_id]: such a value is never captured. *)
Theorem parsed_values_charset s r :
  fst (parse_log s) = Some r ->
  (forall v, user_id r = Some v -> no_space v) /\
  (forall v, ip_address r = Some v -> no_space v) /\
  (forall v, action r = Some v -> no_space v /\ no_pipe v) /\
  (forall v, status r = Some v -> no_space v /\ no_pipe v) /\
  (forall v, session_id r = Some v -> no_space v /\ no_pipe v) /\
  (forall v, request_id r = Some v -> no_space v /\ no_pipe v) /\
  (forall v, trace_id r = Some v -> no_space v /\ no_pipe v).
Proof.
  intros H. apply parse_log_sound in H as (f & t & _ & G & -> & _).
  destruct G. simpl.
  repeat match goal with |- _ /\ _ => split end;
    intros v E; apply absent_if_empty_Some in E; subst v;
    first [ eapply derives_nospace; eassumption
          | eapply derives_nopipe_nospace; eassumption ].
Qed.

Lemma parsed_values_charset_witness :
  (forall v, user_id example_record = Some v -> no_space v) /\
  (forall v, ip_address example_record = Some v -> no_space v) /\
  (forall v, action example_record = Some v -> no_space v /\ no_pipe v) /\
  (forall v, status example_record = Some v -> no_space v /\ no_pipe v) /\
  (forall v, session_id example_record = Some v -> no_space v /\ no_pipe v) /\
  (forall v, request_id example_record = Some v -> no_space v /\ no_pipe v) /\
  (forall v, trace_id example_record = Some v -> no_space v /\ no_pipe v).
Proof.
  apply (parsed_values_charset example_line example_record).
  vm_compute. reflexivity.
Defined.

(** C5, as the claim states it, fails: on a line that is not of the grammar
    the result is the bare [None], which carries no line, and [parse_log]
    itself logs the warning. *)
Lemma failure_is_bare_and_logged :
  parse_log garbage_line =
  (None, [(WARNING, of_string "Log format is invalid: not a log line")]).
Proof. vm_compute. reflexivity. Qed.

(** C5, amended. For every line no prefix of which is a line of the
    grammar, [parse_log] returns the bare failure marker [None], never a
    partially populated tuple, and itself logs one warning, which quotes
    the original raw line. *)
Theorem parse_failure_logged s :
  (forall f t, in_grammar f -> s <> render f ++ t) ->
  parse_log s = (None, [(WARNING, of_string "Log format is invalid: " ++ s)]).
Proof.
  intros H. apply parse_log_None.
  destruct (fst (parse_log s)) as [r|] eqn:E; [|reflexivity].
  apply parse_log_sound in E as (f & t & Hs & G & _).
  exfalso. exact (H f t G Hs).
Qed.

Lemma garbage_line_not_grammatical f t :
  in_grammar f -> garbage_line <> render f ++ t.
Proof.
  intros G E. destruct (parse_log_complete f t G) as [r H].
  rewrite <- E in H. vm_compute in H. discriminate.
Qed.

Lemma parse_failure_logged_witness :
  parse_log garbage_line =
  (None, [(WARNING, of_string "Log format is invalid: " ++ garbage_line)]).
Proof. exact (parse_failure_logged garbage_line garbage_line_not_grammatical). Defined.

Example missing_separator_rejected :
  fst (parse_log missing_separator_line) = None.
Proof. vm_compute. reflexivity. Qed.

Example missing_field_rejected : fst (parse_log missing_field_line) = None.
Proof. vm_compute. reflexivity. Qed.

Example bad_timestamp_rejected : fst (parse_log bad_timestamp_line) = None.
Proof. vm_compute. reflexivity. Qed.

(** C10. [parse_log] is total: on every string it returns either [None] or
    an 18-component tuple, and raises nothing; and in every tuple it
    returns, [timestamp], [log_id], [event_type], [user_id] and
    [ip_address] are present, and not empty. *)
Theorem parse_log_total s :
  parse_log s = (None, [(WARNING, of_string "Log format is invalid: " ++ s)]) \/
  exists r ts lid ev uid ip,
    parse_log s = (Some r, []) /\
    timestamp r = Some ts /\ ts <> [] /\
    log_id r = Some lid /\ lid <> [] /\
    event_type r = Some ev /\ ev <> [] /\
    user_id r = Some uid /\ uid <> [] /\
    ip_address r = Some ip /\ ip <> [].
Proof.
  destruct (fst (parse_log s)) as [r|] eqn:E.
  - right. apply parse_log_sound in E as (f & t & _ & G & -> & H).
    destruct G.
    exists (normalized f), (f_timestamp f), (f_log_id f), (f_event_type f),
      (f_user_id f), (f_ip_address f).
    pose proof (derives_timestamp_nonempty _ g_timestamp0).
    pose proof (derives_log_id_nonempty _ g_log_id0).
    pose proof (derives_plus_nonempty _ _ g_event_type0).
    pose proof (derives_plus_nonempty _ _ g_user_id0).
    pose proof (derives_plus_nonempty _ _ g_ip_address0).
    simpl. rewrite !absent_if_empty_nonempty by assumption.
    repeat split; assumption.
  - left. now apply parse_log_None.
Qed.

(* ------------------------------------------------------------------ *)
(** ** The ingestion loop and the store *)

(** C6. In a turn of the loop in which the message parses and
    [insert_log] raises the exception [x] (at the statement or at the
    commit), whatever later turns would bring, the loop is left: the
    consumer and the connection are closed, and between the poll of this
    turn and the two closings the only calls are the one failed insert and,
    if it came to it, its commit (no retry, no further poll, no other
    message handled), the rows stored before being kept; the loop ends on
    [x] re-raised. *)
Theorem store_error_shuts_down e rest w m s d x :
  polled e = Ok (Some m) -> error m = None -> value m = Ok s ->
  fst (parse_log s) = Some d ->
  closed (conn w) = false ->
  fst (insert_log (store_fault e) d (after_poll w)) = Raised x ->
  is_Exception x = true ->
  exists w' committing,
    ingestion (e :: rest) w = (TERMINATED (Raised x), w') /\
    consumer_open w' = false /\
    closed (conn w') = true /\
    (committing = [] \/ committing = [CCommit]) /\
    calls w' =
      calls w ++ [CPoll; CExecuteInsert d] ++ committing
              ++ [CConsumerClose; CConnClose] /\
    keeps_rows w w'.
Proof.
  intros Hp He Hv Hd Hc Hi Hx.
  destruct (insert_log (store_fault e) d (after_poll w)) as [o w2] eqn:E.
  simpl in Hi. subst o.
  destruct (insert_log_effect _ _ _ _ _ E)
    as (_ & _ & _ & (sent & Hcalls & Hsent & Hne & _) & Hk & _).
  assert (Hcm : exists committing,
             (committing = [] \/ committing = [CCommit]) /\
             sent = CExecuteInsert d :: committing).
  { destruct Hsent as [-> | [-> | ->]].
    - now contradiction (Hne Hc).
    - exists []. auto.
    - exists [CCommit]. auto. }
  destruct Hcm as (committing & Hcm & Hs). subst sent.
  exists (after_shutdown x w2), committing.
  rewrite (ingestion_raised e rest w x w2)
    by (rewrite (iteration_parsed _ _ _ _ _ Hp He Hv Hd); exact E).
  unfold exit_of. rewrite Hx. simpl. rewrite Hcalls. simpl.
  rewrite <- !app_assoc. simpl.
  repeat split; auto.
Qed.

Lemma store_error_shuts_down_witness :
  exists w' committing,
    ingestion [failing_commit_step; no_message_step] running_world
    = (TERMINATED (Raised write_error), w') /\
    consumer_open w' = false /\
    closed (conn w') = true /\
    (committing = [] \/ committing = [CCommit]) /\
    calls w' =
      calls running_world ++ [CPoll; CExecuteInsert example_record]
        ++ committing ++ [CConsumerClose; CConnClose] /\
    keeps_rows running_world w'.
Proof.
  apply (store_error_shuts_down failing_commit_step [no_message_step]
           running_world (message_of example_line) example_line
           example_record write_error); reflexivity.
Defined.

(** C7. In a turn of the loop in which the payload of the message fails to
    parse, the message is dropped: the store's insert is not called and the
    tables are untouched, a warning is logged, and the loop goes on with
    the next turn, which starts by polling again. *)
Theorem parse_failure_discarded e rest w m s :
  polled e = Ok (Some m) -> error m = None -> value m = Ok s ->
  fst (parse_log s) = None ->
  exists w',
    iteration e w = (Ok tt, w') /\
    ingestion (e :: rest) w = ingestion rest w' /\
    calls w' = calls w ++ [CPoll] /\
    conn w' = conn w /\ consumer_open w' = consumer_open w /\
    log w' = log w ++ [(WARNING, of_string "Log format is invalid: " ++ s)] /\
    (forall e', exists tail,
        calls (snd (iteration e' w')) = calls w' ++ CPoll :: tail).
Proof.
  intros Hp He Hv Hd.
  pose proof (iteration_parse_failure e w m s Hp He Hv Hd) as Hi.
  eexists. split; [exact Hi|]. split; [exact (ingestion_continue _ _ _ _ Hi)|].
  simpl. repeat split. intros e'. apply iteration_polls_first.
Qed.

Lemma parse_failure_discarded_witness :
  exists w',
    iteration garbage_step running_world = (Ok tt, w') /\
    ingestion [garbage_step; no_message_step] running_world
    = ingestion [no_message_step] w' /\
    calls w' = calls running_world ++ [CPoll] /\
    conn w' = conn running_world /\
    consumer_open w' = consumer_open running_world /\
    log w' = log running_world
             ++ [(WARNING, of_string "Log format is invalid: " ++ garbage_line)] /\
    (forall e', exists tail,
        calls (snd (iteration e' w')) = calls w' ++ CPoll :: tail).
Proof.
  apply (parse_failure_discarded garbage_step [no_message_step] running_world
           (message_of garbage_line) garbage_line); reflexivity.
Defined.

(** C8. In a turn of the loop, when the poll gives no message, and when it
    gives an event whose error code is the end-of-partition code, the loop
    goes on with the next turn, which polls again, without a call to the
    store; when it gives an event with any other error code, the loop is
    left on a [KafkaException] and the consumer and the connection are
    closed. Only the end-of-partition code is let through. *)
Theorem poll_outcomes e rest w :
  (polled e = Ok None ->
   ingestion (e :: rest) w = ingestion rest (after_poll w)) /\
  (forall m err,
      polled e = Ok (Some m) -> error m = Some err ->
      (code err = _PARTITION_EOF ->
       exists w',
         iteration e w = (Ok tt, w') /\
         ingestion (e :: rest) w = ingestion rest w' /\
         calls w' = calls w ++ [CPoll] /\ conn w' = conn w /\
         consumer_open w' = consumer_open w) /\
      (code err <> _PARTITION_EOF ->
       exists w',
         ingestion (e :: rest) w
         = (TERMINATED (Raised (Exn KafkaException (error_str err))), w') /\
         consumer_open w' = false /\ closed (conn w') = true /\
         catalog (conn w') = catalog (conn w) /\
         calls w' = calls w ++ [CPoll; CConsumerClose; CConnClose])) /\
  (forall e' w', exists tail,
      calls (snd (iteration e' w')) = calls w' ++ CPoll :: tail).
Proof.
  split; [|split].
  - intros Hp. apply ingestion_continue. now apply iteration_no_message.
  - intros m err Hp He. split; intros Hc.
    + pose proof (iteration_informational e w m err Hp He Hc) as Hi.
      eexists. split; [exact Hi|].
      split; [exact (ingestion_continue _ _ _ _ Hi)|]. simpl. auto.
    + pose proof (iteration_fatal e w m err Hp He Hc) as Hi.
      eexists. split; [exact (ingestion_raised _ _ _ _ _ Hi)|].
      simpl. rewrite <- !app_assoc. auto.
  - intros e' w'. apply iteration_polls_first.
Qed.

Lemma poll_outcomes_witness :
  ingestion [no_message_step; partition_eof_step] running_world
  = ingestion [partition_eof_step] (after_poll running_world) /\
  (exists w',
      iteration partition_eof_step running_world = (Ok tt, w') /\
      ingestion [partition_eof_step; no_message_step] running_world
      = ingestion [no_message_step] w' /\
      calls w' = calls running_world ++ [CPoll] /\
      conn w' = conn running_world /\
      consumer_open w' = consumer_open running_world) /\
  (exists w',
      ingestion [transport_error_step; no_message_step] running_world
      = (TERMINATED (Raised (Exn KafkaException (error_str transport_error))), w') /\
      consumer_open w' = false /\ closed (conn w') = true /\
      catalog (conn w') = catalog (conn running_world) /\
      calls w' = calls running_world ++ [CPoll; CConsumerClose; CConnClose]).
Proof.
  split; [|split].
  - exact (proj1 (poll_outcomes no_message_step [partition_eof_step]
                                running_world) eq_refl).
  - refine (proj1 (proj1 (proj2 (poll_outcomes partition_eof_step
                                   [no_message_step] running_world))
                         _ _ eq_refl eq_refl) eq_refl).
  - refine (proj2 (proj1 (proj2 (poll_outcomes transport_error_step
                                   [no_message_step] running_world))
                         _ _ eq_refl eq_refl) _).
    discriminate.
Defined.

Lemma create_if_not_exists_idempotent (cat : gmap string table) :
  create_if_not_exists (create_if_not_exists cat) = create_if_not_exists cat.
Proof.
  unfold create_if_not_exists.
  destruct (cat !! "logs") as [t|] eqn:E.
  - now rewrite E.
  - now rewrite lookup_insert_eq.
Qed.

Lemma create_log_table_ok f w :
  on_execute f = None -> on_commit f = None ->
  closed (conn w) = false ->
  create_log_table f w =
  (Ok tt,
   World (Connection (backend (conn w))
                     (create_if_not_exists (catalog (conn w))) false)
         (consumer_open w) (calls w ++ [CExecuteCreate; CCommit])
         (log w ++ [(INFO, of_string "Created logs table (if it didn't exist).")])).
Proof.
  intros He Hm Hc. unfold_m. rewrite Hc. simpl. rewrite He. simpl.
  rewrite Hm. simpl. rewrite Hc. now rewrite <- app_assoc.
Qed.

(** C9. The schema bootstrap is idempotent: called twice in a row on a
    store without tables, it returns without error both times, the second
    call changes nothing in the store, and the store then holds exactly one
    table, [logs], empty and with the columns of the statement. *)
Theorem create_log_table_idempotent srv co cs lg :
  exists w1 w2,
    create_log_table no_faults (World (empty_store srv) co cs lg) = (Ok tt, w1) /\
    create_log_table no_faults w1 = (Ok tt, w2) /\
    conn w2 = conn w1 /\
    catalog (conn w2) = {["logs" := Table logs_schema 1 []]} /\
    size (catalog (conn w2)) = 1.
Proof.
  do 2 eexists. split; [|split].
  - apply create_log_table_ok; reflexivity.
  - apply create_log_table_ok; reflexivity.
  - simpl. rewrite create_if_not_exists_idempotent.
    assert (E : create_if_not_exists (∅ : gmap string table)
                = {["logs" := Table logs_schema 1 []]}).
    { unfold create_if_not_exists. rewrite lookup_empty. apply insert_empty. }
    rewrite E. split; [reflexivity|]. split; [reflexivity|].
    apply map_size_singleton.
Qed.

Example failing_commit_trace :
  calls (snd (ingestion [failing_commit_step; no_message_step] running_world))
  = [CPoll; CExecuteInsert example_record; CCommit; CConsumerClose; CConnClose].
Proof. reflexivity. Qed.

Example failing_insert_trace :
  calls (snd (ingestion [failing_insert_step; no_message_step] running_world))
  = [CPoll; CExecuteInsert example_record; CConsumerClose; CConnClose].
Proof. reflexivity. Qed.

(* ------------------------------------------------------------------ *)
(** ** Further properties of the parser *)

(** Text after a line of the grammar that is empty or starts with a
    whitespace or pipe character is ignored: [parse_log] returns what it
    returns for the line alone. *)
Theorem trailing_text_ignored f t :
  grammatical f -> stops cs_nopipe_nospace t ->
  parse_log (render f ++ t) = parse_log (render f).
Proof.
  intros G Ht. rewrite (parse_log_render f t G Ht).
  rewrite <- (app_nil_r (render f)).
  now rewrite (parse_log_render f [] G I).
Qed.

Lemma trailing_text_ignored_witness :
  parse_log (render full_fields ++ trailing_text)
  = parse_log (render full_fields).
Proof.
  exact (trailing_text_ignored full_fields trailing_text
                               full_fields_grammatical eq_refl).
Defined.

Lemma render_with_trace_id f t :
  render (with_trace_id f (f_trace_id f ++ t)) = render f ++ t.
Proof.
  destruct f. unfold render, with_trace_id. cbn -[of_string app].
  now rewrite <- !app_assoc.
Qed.

(** Text after a line of the grammar that has no whitespace or pipe
    character in it is taken into the last field: the [trace_id] of the
    tuple is the one of the line followed by that text. *)
Theorem trailing_text_joins_trace_id f t :
  grammatical f -> forallb (cmem cs_nopipe_nospace) t = true ->
  parse_log (render f ++ t)
  = (Some (normalized (with_trace_id f (f_trace_id f ++ t))), []).
Proof.
  intros [G D] Ht. rewrite <- render_with_trace_id.
  rewrite <- (app_nil_r (render _)).
  apply parse_log_render; [|exact I].
  destruct G, D. split; constructor; simpl; try assumption.
  destruct g_trace_id0 as (Hv & _). simpl.
  rewrite forallb_app, Hv, Ht. repeat split. lia.
Qed.

Lemma trailing_text_joins_trace_id_witness :
  parse_log (render full_fields ++ of_string "-retry")
  = (Some (normalized (with_trace_id full_fields
                         (f_trace_id full_fields ++ of_string "-retry"))), []).
Proof.
  exact (trailing_text_joins_trace_id full_fields (of_string "-retry")
                                      full_fields_grammatical eq_refl).
Defined.

(** The message [parse_log] returns a tuple for starts with the values of
    the tuple, as they stand and in order, between the keys of the format:
    nothing in the tuple is made up or transformed, but for the empty
    values that are absent. *)
Theorem parsed_values_are_input_text s r :
  fst (parse_log s) = Some r ->
  exists f t, s = render f ++ t /\ r = normalized f.
Proof.
  intros H. apply parse_log_sound in H as (f & t & Hs & _ & Hr & _).
  now exists f, t.
Qed.

Lemma parsed_values_are_input_text_witness :
  exists f t, example_line ++ trailing_text = render f ++ t /\
              example_record = normalized f.
Proof.
  exact (parsed_values_are_input_text (example_line ++ trailing_text)
                                      example_record eq_refl).
Defined.

Lemma absent_if_empty_not_empty v : not_empty_string (absent_if_empty v).
Proof. destruct v; discriminate. Qed.

(** No component of a tuple [parse_log] returns is the empty string: a
    component is absent or has at least one character. *)
Theorem parsed_components_not_empty s r :
  fst (parse_log s) = Some r ->
  not_empty_string (timestamp r) /\ not_empty_string (log_id r) /\
  not_empty_string (event_type r) /\ not_empty_string (user_id r) /\
  not_empty_string (username r) /\ not_empty_string (ip_address r) /\
  not_empty_string (country r) /\ not_empty_string (region r) /\
  not_empty_string (city r) /\ not_empty_string (coordinates r) /\
  not_empty_string (os r) /\ not_empty_string (browser r) /\
  not_empty_string (device_type r) /\ not_empty_string (action r) /\
  not_empty_string (status r) /\ not_empty_string (session_id r) /\
  not_empty_string (request_id r) /\ not_empty_string (trace_id r).
Proof.
  intros H. apply parse_log_sound in H as (f & t & _ & G & -> & _).
  destruct G.
  pose proof (derives_timestamp_nonempty _ g_timestamp0) as H1.
  pose proof (derives_log_id_nonempty _ g_log_id0) as H2.
  pose proof (derives_plus_nonempty _ _ g_event_type0) as H3.
  simpl.
  repeat match goal with |- _ /\ _ => split end;
    try apply absent_if_empty_not_empty;
    unfold not_empty_string; intros E; inversion E; congruence.
Qed.

Lemma parsed_components_not_empty_witness :
  not_empty_string (timestamp example_record) /\
  not_empty_string (log_id example_record) /\
  not_empty_string (event_type example_record) /\
  not_empty_string (user_id example_record) /\
  not_empty_string (username example_record) /\
  not_empty_string (ip_address example_record) /\
  not_empty_string (country example_record) /\
  not_empty_string (region example_record) /\
  not_empty_string (city example_record) /\
  not_empty_string (coordinates example_record) /\
  not_empty_string (os example_record) /\
  not_empty_string (browser example_record) /\
  not_empty_string (device_type example_record) /\
  not_empty_string (action example_record) /\
  not_empty_string (status example_record) /\
  not_empty_string (session_id example_record) /\
  not_empty_string (request_id example_record) /\
  not_empty_string (trace_id example_record).
Proof.
  exact (parsed_components_not_empty example_line example_record eq_refl).
Defined.

Lemma cmem_upper c : cmem cs_upper c = upper_or_underscore c.
Proof.
  change (cmem cs_upper c)
    with (xorb false (((65 <=? c)%N && (c <=? 90)%N) || ((c =? 95)%N || false))).
  unfold upper_or_underscore.
  now destruct (65 <=? c)%N, (c <=? 90)%N, (c =? 95)%N.
Qed.

Lemma derives_timestamp_length v : derives timestamp_re v [] -> 27 <= length v.
Proof.
  unfold timestamp_re, lit, exactly, plus. cbn [derives]. intros H. break.
  subst. rewrite !length_app. cbn. lia.
Qed.

Lemma derives_log_id_shape v :
  derives log_id_re v [] ->
  21 <= length v /\ exists rest, v = of_string "ACT-" ++ rest.
Proof.
  unfold log_id_re, lit, exactly, plus. cbn [derives]. intros H. break.
  subst. split; [|eauto]. rewrite !length_app. cbn. lia.
Qed.

(** In a tuple [parse_log] returns, the [timestamp] has at least 27
    characters, the [log_id] at least 21, of which the first four are
    [ACT-], and the [event_type] is made of capital ASCII letters and
    underscores. *)
Theorem parsed_required_shapes s r :
  fst (parse_log s) = Some r ->
  exists ts lid ev rest,
    timestamp r = Some ts /\ 27 <= length ts /\
    log_id r = Some lid /\ 21 <= length lid /\
    lid = of_string "ACT-" ++ rest /\
    event_type r = Some ev /\ forallb upper_or_underscore ev = true.
Proof.
  intros H. apply parse_log_sound in H as (f & t & _ & G & -> & _).
  destruct G.
  destruct (derives_log_id_shape _ g_log_id0) as (Hl & rest & Hr).
  exists (f_timestamp f), (f_log_id f), (f_event_type f), rest. simpl.
  repeat split; try assumption.
  - now apply derives_timestamp_length.
  - destruct g_event_type0 as (Hv & _).
    rewrite forallb_forall in *. intros c Hc. rewrite <- cmem_upper. auto.
Qed.

Lemma parsed_required_shapes_witness :
  exists ts lid ev rest,
    timestamp example_record = Some ts /\ 27 <= length ts /\
    log_id example_record = Some lid /\ 21 <= length lid /\
    lid = of_string "ACT-" ++ rest /\
    event_type example_record = Some ev /\
    forallb upper_or_underscore ev = true.
Proof. exact (parsed_required_shapes example_line example_record eq_refl). Defined.

Lemma derives_nopipe v : derives (star_lazy cs_nopipe) v [] -> no_pipe v.
Proof.
  intros (Hv & _). unfold no_pipe. rewrite forallb_forall in *.
  intros c Hc. rewrite <- cmem_nopipe. auto.
Qed.

(** In a tuple [parse_log] returns, none of the values that may contain
    spaces ([username], [country], [region], [city], [coordinates], [os],
    [browser], [device_type]) contains a pipe character. *)
Theorem parsed_free_text_no_pipe s r :
  fst (parse_log s) = Some r ->
  (forall v, username r = Some v -> no_pipe v) /\
  (forall v, country r = Some v -> no_pipe v) /\
  (forall v, region r = Some v -> no_pipe v) /\
  (forall v, city r = Some v -> no_pipe v) /\
  (forall v, coordinates r = Some v -> no_pipe v) /\
  (forall v, os r = Some v -> no_pipe v) /\
  (forall v, browser r = Some v -> no_pipe v) /\
  (forall v, device_type r = Some v -> no_pipe v).
Proof.
  intros H. apply parse_log_sound in H as (f & t & _ & G & -> & _).
  destruct G. simpl.
  repeat match goal with |- _ /\ _ => split end;
    intros v E; apply absent_if_empty_Some in E; subst v;
    now apply derives_nopipe.
Qed.

Lemma parsed_free_text_no_pipe_witness :
  (forall v, username example_record = Some v -> no_pipe v) /\
  (forall v, country example_record = Some v -> no_pipe v) /\
  (forall v, region example_record = Some v -> no_pipe v) /\
  (forall v, city example_record = Some v -> no_pipe v) /\
  (forall v, coordinates example_record = Some v -> no_pipe v) /\
  (forall v, os example_record = Some v -> no_pipe v) /\
  (forall v, browser example_record = Some v -> no_pipe v) /\
  (forall v, device_type example_record = Some v -> no_pipe v).
Proof. exact (parsed_free_text_no_pipe example_line example_record eq_refl). Defined.

Lemma derives_avoids x r : forall u c,
  avoids x r = true -> derives r u c ->
  forallb (fun y => negb (y =? x)%N) u = true.
Proof.
  induction r as [l|cs lo hi g|a IHa b IHb|name a IHa]; intros u c A H;
    simpl in *.
  - destruct H as [-> _]. exact A.
  - destruct H as (Hv & _). rewrite forallb_forall in *. intros y Hy.
    specialize (Hv y Hy). destruct (N.eqb_spec y x); [|reflexivity].
    subst y. rewrite Hv in A. discriminate.
  - apply andb_true_iff in A as [Aa Ab].
    destruct H as (u1 & u2 & c1 & c2 & -> & _ & Ha & Hb).
    rewrite forallb_app. apply andb_true_iff. split; eauto.
  - destruct H as (c' & _ & Ha). eauto.
Qed.

Lemma split_at_first (x : char) : forall u u' r r',
  forallb (fun y => negb (y =? x)%N) u = true ->
  forallb (fun y => negb (y =? x)%N) u' = true ->
  u ++ x :: r = u' ++ x :: r' -> u = u' /\ r = r'.
Proof.
  induction u as [|a u IH]; intros [|a' u'] r r' Hu Hu' E; simpl in *.
  - inversion E. auto.
  - inversion E; subst. rewrite N.eqb_refl in Hu'. discriminate.
  - inversion E; subst. rewrite N.eqb_refl in Hu. discriminate.
  - inversion E; subst.
    apply andb_true_iff in Hu as [_ Hu]. apply andb_true_iff in Hu' as [_ Hu'].
    destruct (IH _ _ _ Hu Hu' H1) as [-> ->]. auto.
Qed.

Lemma peel_segment (a a' R R' : str) :
  forallb (fun y => negb (y =? 32)%N) a = true ->
  forallb (fun y => negb (y =? 32)%N) a' = true ->
  a ++ of_string " | " ++ R = a' ++ of_string " | " ++ R' ->
  a = a' /\ R = R'.
Proof.
  intros Ha Ha' E.
  destruct (split_at_first 32%N a a' (of_string "| " ++ R) (of_string "| " ++ R')
              Ha Ha' E) as [-> E'].
  split; [reflexivity|]. exact (app_inv_head _ _ _ E').
Qed.

(** A line with an empty [user_id] after a well-formed [timestamp],
    [log_id] and [event_type] is rejected, whatever the rest of the line:
    [parse_log] returns [None] and logs the warning. *)
Theorem empty_user_id_never_parsed f :
  derives timestamp_re (f_timestamp f) [] ->
  derives log_id_re (f_log_id f) [] ->
  derives (plus cs_upper) (f_event_type f) [] ->
  f_user_id f = [] ->
  parse_log (render f)
  = (None, [(WARNING, of_string "Log format is invalid: " ++ render f)]).
Proof.
  intros Ht Hl He Hu. apply parse_log_None.
  destruct (fst (parse_log (render f))) as [r|] eqn:E; [|reflexivity].
  exfalso. apply parse_log_sound in E as (f' & t & Hs & G & _).
  destruct G. unfold render in Hs. rewrite Hu in Hs.
  rewrite <- !app_assoc in Hs.
  apply peel_segment in Hs as [_ Hs];
    [|exact (derives_avoids 32%N timestamp_re _ _ eq_refl Ht)
     |exact (derives_avoids 32%N timestamp_re _ _ eq_refl g_timestamp0)].
  apply peel_segment in Hs as [_ Hs];
    [|exact (derives_avoids 32%N log_id_re _ _ eq_refl Hl)
     |exact (derives_avoids 32%N log_id_re _ _ eq_refl g_log_id0)].
  apply peel_segment in Hs as [_ Hs];
    [|exact (derives_avoids 32%N (plus cs_upper) _ _ eq_refl He)
     |exact (derives_avoids 32%N (plus cs_upper) _ _ eq_refl g_event_type0)].
  apply app_inv_head in Hs.
  destruct g_user_id0 as (Hv & Hlo & _).
  destruct (f_user_id f') as [|c u]; [simpl in Hlo; lia|].
  assert (Hc : c = 32%N) by (inversion Hs; reflexivity).
  subst c. cbn [forallb] in Hv. apply andb_true_iff in Hv as [Hv _].
  vm_compute in Hv. discriminate.
Qed.

Lemma empty_user_id_never_parsed_witness :
  parse_log (render no_user_id_fields)
  = (None, [(WARNING, of_string "Log format is invalid: "
                      ++ render no_user_id_fields)]).
Proof.
  apply (empty_user_id_never_parsed no_user_id_fields);
    first [reflexivity | by_run].
Defined.

(* ------------------------------------------------------------------ *)
(** ** Further properties of the store *)

Lemma parsed_not_null s d : fst (parse_log s) = Some d -> not_null_ok d = true.
Proof.
  intros H. apply parse_log_sound in H as (f & t & _ & _ & -> & _).
  reflexivity.
Qed.

Lemma accepted_inv srv d z :
  accepted srv d = Some z ->
  adapt srv (parameters d) = None /\ not_null_ok d = true /\
  exists s, timestamp d = Some s /\ timestamp_in srv s = Ok z.
Proof.
  unfold accepted. intros H.
  destruct (adapt srv (parameters d)); [discriminate|].
  destruct (timestamp d) as [s|]; [|discriminate].
  destruct (timestamp_in srv s) as [z'|] eqn:E; [|discriminate].
  destruct (not_null_ok d); [|discriminate].
  inversion H; subst. eauto.
Qed.

Lemma insert_log_ok f w d t z :
  on_execute f = None -> on_commit f = None ->
  closed (conn w) = false ->
  catalog (conn w) !! "logs" = Some t ->
  schema_ok t = true ->
  accepted (backend (conn w)) d = Some z ->
  insert_log f d w =
  (Ok tt,
   World (Connection (backend (conn w))
            (<["logs" := with_row t (Row (next_id t) z (text_columns d))]>
               (catalog (conn w)))
            false)
         (consumer_open w) (calls w ++ [CExecuteInsert d; CCommit])
         (log w ++ [(INFO, of_string "Inserted log into PostgreSQL: "
                           ++ format_component (log_id d))])).
Proof.
  intros He Hm Hc Ht Hs Ha.
  apply accepted_inv in Ha as (Had & Hn & s & Hts & Hz).
  unfold_m. rewrite Hc. simpl. rewrite Had, He. simpl. rewrite Ht, Hs, Hts.
  simpl. rewrite Hz, Hn. simpl. rewrite Hm. simpl. rewrite Hc.
  now rewrite <- app_assoc.
Qed.

Lemma running_world_logs :
  catalog (conn running_world) !! "logs" = Some (Table logs_schema 1 []).
Proof.
  unfold running_world, create_if_not_exists. simpl.
  rewrite lookup_empty. apply lookup_insert_eq.
Qed.

Lemma example_record_parsed : fst (parse_log example_line) = Some example_record.
Proof. vm_compute. reflexivity. Qed.

(** Two inserts in a row, without failure, of any two tuples the server
    takes (their values adapted, their timestamps dates, their [NOT NULL]
    columns filled), equal or not, add two rows at the end of the table,
    under two successive keys, each with the server's value of its
    timestamp and its other values as they are: nothing is overwritten and
    no tuple is refused for being a duplicate. *)
Theorem insert_twice_appends_two_rows w d1 d2 t z1 z2 :
  closed (conn w) = false ->
  catalog (conn w) !! "logs" = Some t ->
  schema_ok t = true ->
  accepted (backend (conn w)) d1 = Some z1 ->
  accepted (backend (conn w)) d2 = Some z2 ->
  exists w1 w2 t2,
    insert_log no_faults d1 w = (Ok tt, w1) /\
    insert_log no_faults d2 w1 = (Ok tt, w2) /\
    catalog (conn w2) !! "logs" = Some t2 /\
    rows t2 = rows t ++ [Row (next_id t) z1 (text_columns d1);
                         Row (next_id t + 1) z2 (text_columns d2)] /\
    next_id t2 = (next_id t + 2)%Z /\ schema t2 = schema t.
Proof.
  intros Hc Ht Hs H1 H2.
  eexists. eexists.
  exists (with_row (with_row t (Row (next_id t) z1 (text_columns d1)))
                   (Row (next_id t + 1) z2 (text_columns d2))).
  split; [exact (insert_log_ok no_faults w d1 t z1 eq_refl eq_refl Hc Ht Hs H1)|].
  split.
  - apply (insert_log_ok no_faults _ d2
             (with_row t (Row (next_id t) z1 (text_columns d1))) z2);
      try reflexivity; try assumption.
    simpl. apply lookup_insert_eq.
  - simpl. split; [apply lookup_insert_eq|].
    unfold with_row. simpl.
    split; [now rewrite <- app_assoc|]. split; [lia|reflexivity].
Qed.

Lemma insert_twice_appends_two_rows_witness :
  exists w1 w2 t2,
    insert_log no_faults example_record running_world = (Ok tt, w1) /\
    insert_log no_faults example_record w1 = (Ok tt, w2) /\
    catalog (conn w2) !! "logs" = Some t2 /\
    rows t2 = rows (Table logs_schema 1 [])
              ++ [Row (next_id (Table logs_schema 1 [])) example_stamp
                      (text_columns example_record);
                  Row (next_id (Table logs_schema 1 []) + 1) example_stamp
                      (text_columns example_record)] /\
    next_id t2 = (next_id (Table logs_schema 1 []) + 2)%Z /\
    schema t2 = schema (Table logs_schema 1 []).
Proof.
  exact (insert_twice_appends_two_rows running_world example_record
           example_record (Table logs_schema 1 []) _ _ eq_refl
           running_world_logs eq_refl eq_refl eq_refl).
Defined.

(** An insert that raises, at the statement or at the commit, has sent the
    statement once at most and called the commit once at most; the rows
    stored before are kept, and unless the commit was called the table has
    the rows it had (the key of the next row may have advanced); an
    exception that is an [Exception] was logged once as an error before it
    was re-raised, any other was not logged. *)
Theorem failed_insert_keeps_rows f d w x w2 :
  insert_log f d w = (Raised x, w2) ->
  consumer_open w2 = consumer_open w /\
  closed (conn w2) = closed (conn w) /\
  (exists sent,
      calls w2 = calls w ++ sent /\
      (sent = [] \/ sent = [CExecuteInsert d] \/
       sent = [CExecuteInsert d; CCommit]) /\
      (~ In CCommit sent -> same_rows w w2)) /\
  keeps_rows w w2 /\
  log w2 = log w ++
           (if is_Exception x
            then [(ERROR, of_string "Failed to insert log into PostgreSQL: "
                          ++ exn_str x)]
            else []).
Proof.
  intros H.
  apply insert_log_effect in H
    as (H1 & H2 & _ & (sent & Hc & Hs & _ & _ & Hr) & Hk & Hl).
  repeat split; auto.
  exists sent. repeat split; auto.
  intros Hn. apply Hr. intros ->. apply Hn. right. now left.
Qed.

Lemma failed_insert_witness_run :
  insert_log (store_fault failing_insert_step) example_record running_world =
  (Raised write_error,
   World (conn running_world) true [CExecuteInsert example_record]
         [(ERROR, of_string "Failed to insert log into PostgreSQL: "
                  ++ exn_str write_error)]).
Proof. reflexivity. Qed.

Lemma failed_insert_keeps_rows_witness :
  let w2 := World (conn running_world) true [CExecuteInsert example_record]
                  [(ERROR, of_string "Failed to insert log into PostgreSQL: "
                           ++ exn_str write_error)] in
  consumer_open w2 = consumer_open running_world /\
  closed (conn w2) = closed (conn running_world) /\
  (exists sent,
      calls w2 = calls running_world ++ sent /\
      (sent = [] \/ sent = [CExecuteInsert example_record] \/
       sent = [CExecuteInsert example_record; CCommit]) /\
      (~ In CCommit sent -> same_rows running_world w2)) /\
  keeps_rows running_world w2 /\
  log w2 = log running_world ++
           (if is_Exception write_error
            then [(ERROR, of_string "Failed to insert log into PostgreSQL: "
                          ++ exn_str write_error)]
            else []).
Proof.
  exact (failed_insert_keeps_rows (store_fault failing_insert_step)
           example_record running_world write_error _
           failed_insert_witness_run).
Defined.

(** On an open connection, when neither the statement nor the commit
    fails, [create_log_table] returns normally, leaves every table other
    than [logs] as it was, leaves an existing [logs] table and its rows as
    they were, and a [logs] table exists afterwards. *)
Theorem create_log_table_keeps_data w :
  closed (conn w) = false ->
  exists w',
    create_log_table no_faults w = (Ok tt, w') /\
    (forall name : string,
        name <> "logs" -> catalog (conn w') !! name = catalog (conn w) !! name) /\
    (forall t, catalog (conn w) !! "logs" = Some t ->
               catalog (conn w') = catalog (conn w)) /\
    catalog (conn w') !! "logs" = Some (bootstrapped_logs (catalog (conn w))).
Proof.
  intros Hc. eexists.
  split; [exact (create_log_table_ok no_faults w eq_refl eq_refl Hc)|].
  simpl. unfold create_if_not_exists, bootstrapped_logs.
  destruct (catalog (conn w) !! "logs") as [t|] eqn:E.
  - repeat split; auto.
  - split; [|split].
    + intros name Hn. now apply lookup_insert_ne.
    + intros t Ht. discriminate.
    + apply lookup_insert_eq.
Qed.

Lemma create_log_table_keeps_data_witness :
  exists w',
    create_log_table no_faults one_row_world = (Ok tt, w') /\
    (forall name : string,
        name <> "logs" ->
        catalog (conn w') !! name = catalog (conn one_row_world) !! name) /\
    (forall t, catalog (conn one_row_world) !! "logs" = Some t ->
               catalog (conn w') = catalog (conn one_row_world)) /\
    catalog (conn w') !! "logs"
    = Some (bootstrapped_logs (catalog (conn one_row_world))).
Proof. exact (create_log_table_keeps_data one_row_world eq_refl). Defined.

(** A [create_log_table] that raises, at the statement or at the commit,
    has sent the statement once at most and called the commit once at
    most; the tables are as they were unless the commit was called, and
    then they are as they were or as the statement makes them; an
    [Exception] was logged once as an error before it was re-raised. *)
Theorem failed_create_keeps_tables f w x w2 :
  create_log_table f w = (Raised x, w2) ->
  (exists sent,
      calls w2 = calls w ++ sent /\
      (sent = [] \/ sent = [CExecuteCreate] \/
       sent = [CExecuteCreate; CCommit]) /\
      (~ In CCommit sent -> catalog (conn w2) = catalog (conn w))) /\
  (catalog (conn w2) = catalog (conn w) \/
   catalog (conn w2) = create_if_not_exists (catalog (conn w))) /\
  log w2 = log w ++
           (if is_Exception x
            then [(ERROR, of_string "Failed to create logs table: " ++ exn_str x)]
            else []).
Proof.
  intros H. unfold_m. simpl in H. split_cases H;
    inversion H; subst; clear H; simpl;
    repeat match goal with
           | H : is_Exception _ = _ |- _ => rewrite H
           end;
    (split;
     [ first
         [ exists []; split; [now rewrite app_nil_r|];
           split; [now left|]; reflexivity
         | exists [CExecuteCreate]; split; [reflexivity|];
           split; [now right; left|]; reflexivity
         | exists [CExecuteCreate; CCommit];
           split; [now rewrite <- app_assoc|];
           split; [now right; right|];
           intros Hn; exfalso; apply Hn; right; now left ]
     | split; [ first [now left | now right]
              | try (now rewrite app_nil_r); reflexivity ] ]).
Qed.

Lemma failed_create_witness_run :
  create_log_table (Faults None false (Some connection_refused) false)
                   (World (empty_store sample_server) true [] []) =
  (Raised connection_refused,
   World (empty_store sample_server) true [CExecuteCreate; CCommit]
         [(ERROR, of_string "Failed to create logs table: "
                  ++ exn_str connection_refused)]).
Proof. reflexivity. Qed.

Lemma failed_create_keeps_tables_witness :
  let w := World (empty_store sample_server) true [] [] in
  let w2 := World (empty_store sample_server) true [CExecuteCreate; CCommit]
                  [(ERROR, of_string "Failed to create logs table: "
                           ++ exn_str connection_refused)] in
  (exists sent,
      calls w2 = calls w ++ sent /\
      (sent = [] \/ sent = [CExecuteCreate] \/
       sent = [CExecuteCreate; CCommit]) /\
      (~ In CCommit sent -> catalog (conn w2) = catalog (conn w))) /\
  (catalog (conn w2) = catalog (conn w) \/
   catalog (conn w2) = create_if_not_exists (catalog (conn w))) /\
  log w2 = log w ++
           (if is_Exception connection_refused
            then [(ERROR, of_string "Failed to create logs table: "
                          ++ exn_str connection_refused)]
            else []).
Proof.
  exact (failed_create_keeps_tables _ _ connection_refused _
           failed_create_witness_run).
Defined.

(** A tuple [parse_log] returns never fails the [NOT NULL] constraints of
    the table: on an open connection to a store with the [logs] table,
    when nothing fails, the driver adapts the values of the tuple and the
    server takes its timestamp as a date, [insert_log] stores it; the table
    gains the row, under its next key, with the server's value of the
    timestamp. *)
Theorem parsed_record_is_stored s d w t ts z :
  fst (parse_log s) = Some d ->
  closed (conn w) = false ->
  catalog (conn w) !! "logs" = Some t ->
  schema_ok t = true ->
  adapt (backend (conn w)) (parameters d) = None ->
  timestamp d = Some ts ->
  timestamp_in (backend (conn w)) ts = Ok z ->
  exists w',
    insert_log no_faults d w = (Ok tt, w') /\
    catalog (conn w') !! "logs"
    = Some (with_row t (Row (next_id t) z (text_columns d))) /\
    calls w' = calls w ++ [CExecuteInsert d; CCommit].
Proof.
  intros Hp Hc Ht Hs Ha Hts Hz. eexists.
  split.
  - apply (insert_log_ok no_faults w d t z eq_refl eq_refl Hc Ht Hs).
    unfold accepted. rewrite Ha, Hts, Hz, (parsed_not_null s d Hp). reflexivity.
  - simpl. split; [apply lookup_insert_eq|reflexivity].
Qed.

Lemma parsed_record_is_stored_witness :
  exists w',
    insert_log no_faults example_record running_world = (Ok tt, w') /\
    catalog (conn w') !! "logs"
    = Some (with_row (Table logs_schema 1 [])
                     (Row (next_id (Table logs_schema 1 [])) example_stamp
                          (text_columns example_record))) /\
    calls w' = calls running_world ++ [CExecuteInsert example_record; CCommit].
Proof.
  exact (parsed_record_is_stored example_line example_record running_world
           (Table logs_schema 1 []) _ _ example_record_parsed eq_refl
           running_world_logs eq_refl eq_refl eq_refl eq_refl).
Defined.

(* ------------------------------------------------------------------ *)
(** ** Further properties of the ingestion loop *)

Lemma polls_in_app a b : polls_in (a ++ b) = polls_in a + polls_in b.
Proof. unfold polls_in. now rewrite List.filter_app, length_app. Qed.

Lemma closes_in_app a b : closes_in (a ++ b) = closes_in a + closes_in b.
Proof. unfold closes_in. now rewrite List.filter_app, length_app. Qed.

Lemma extends_refl t : extends t t.
Proof. split; [reflexivity|]. exists []. now rewrite app_nil_r. Qed.

Lemma keeps_rows_refl w w' : conn w' = conn w -> keeps_rows w w'.
Proof.
  intros E t Ht. exists t. rewrite E. split; [assumption|apply extends_refl].
Qed.

Lemma keeps_rows_trans w1 w2 w3 :
  keeps_rows w1 w2 -> keeps_rows w2 w3 -> keeps_rows w1 w3.
Proof.
  intros H12 H23 t Ht.
  destruct (H12 t Ht) as (t2 & Ht2 & Hs2 & new2 & Hr2).
  destruct (H23 t2 Ht2) as (t3 & Ht3 & Hs3 & new3 & Hr3).
  exists t3. split; [assumption|]. split; [congruence|].
  exists (new2 ++ new3). rewrite Hr3, Hr2. now rewrite <- app_assoc.
Qed.

(** What [insert_log] may change: some calls, none of them a poll or a
    closing, and rows at the end of the table. *)
Lemma insert_log_frame f d w o w' :
  insert_log f d w = (o, w') ->
  consumer_open w' = consumer_open w /\
  closed (conn w') = closed (conn w) /\
  (exists tail, calls w' = calls w ++ tail /\
                polls_in tail = 0 /\ closes_in tail = 0) /\
  keeps_rows w w'.
Proof.
  intros H.
  apply insert_log_effect in H
    as (H1 & H2 & _ & (sent & Hc & Hs & _) & Hk & _).
  repeat split; auto.
  exists sent. split; [assumption|].
  destruct Hs as [-> | [-> | ->]]; auto.
Qed.

Lemma iteration_poll_raises e w x :
  polled e = Raised x -> iteration e w = (Raised x, after_poll w).
Proof. intros H. unfold_m. simpl. rewrite H. reflexivity. Qed.

Lemma iteration_undecodable e w m x :
  polled e = Ok (Some m) -> error m = None -> value m = Raised x ->
  iteration e w = (Raised x, after_poll w).
Proof. intros H1 H2 H3. unfold_m. simpl. rewrite H1, H2, H3. reflexivity. Qed.

(** What a turn of the loop may change: one poll, then calls that are
    neither a poll nor a closing, and rows at the end of the table. *)
Lemma iteration_frame e w o w' :
  iteration e w = (o, w') ->
  consumer_open w' = consumer_open w /\
  closed (conn w') = closed (conn w) /\
  (exists tail, calls w' = calls w ++ CPoll :: tail /\
                polls_in tail = 0 /\ closes_in tail = 0) /\
  keeps_rows w w'.
Proof.
  intros H.
  assert (Hplain : forall o0 lg,
             (o0, World (conn w) (consumer_open w) (calls w ++ [CPoll]) lg)
             = (o, w') ->
             consumer_open w' = consumer_open w /\
             closed (conn w') = closed (conn w) /\
             (exists tail, calls w' = calls w ++ CPoll :: tail /\
                           polls_in tail = 0 /\ closes_in tail = 0) /\
             keeps_rows w w').
  { intros o0 lg E. inversion E; subst; simpl. repeat split; auto.
    - now exists [].
    - now apply keeps_rows_refl. }
  destruct (polled e) as [[m|]|x] eqn:Hp.
  - destruct (error m) as [err|] eqn:He.
    + destruct (Z.eq_dec (code err) _PARTITION_EOF) as [Hc|Hc].
      * rewrite (iteration_informational _ _ _ _ Hp He Hc) in H.
        exact (Hplain _ _ H).
      * rewrite (iteration_fatal _ _ _ _ Hp He Hc) in H. exact (Hplain _ _ H).
    + destruct (value m) as [s|x] eqn:Hv.
      * destruct (fst (parse_log s)) as [d|] eqn:Hd.
        -- rewrite (iteration_parsed _ _ _ _ _ Hp He Hv Hd) in H.
           apply insert_log_frame in H as (H1 & H2 & (tail & H3 & H4 & H5) & H6).
           simpl in *. repeat split; auto.
           exists tail. rewrite H3, <- app_assoc. auto.
        -- rewrite (iteration_parse_failure _ _ _ _ Hp He Hv Hd) in H.
           exact (Hplain _ _ H).
      * rewrite (iteration_undecodable _ _ _ _ Hp He Hv) in H.
        exact (Hplain _ _ H).
  - rewrite (iteration_no_message _ _ Hp) in H. exact (Hplain _ _ H).
  - rewrite (iteration_poll_raises _ _ _ Hp) in H. exact (Hplain _ _ H).
Qed.

Lemma while_true_frame envs : forall w ox w',
  while_true envs w = (ox, w') ->
  consumer_open w' = consumer_open w /\
  closed (conn w') = closed (conn w) /\
  closes_in (calls w') = closes_in (calls w) /\
  polls_in (calls w') <= polls_in (calls w) + length envs /\
  (ox = None -> polls_in (calls w') = polls_in (calls w) + length envs) /\
  keeps_rows w w'.
Proof.
  induction envs as [|e envs IH]; intros w ox w' H; simpl in H.
  - inversion H; subst. simpl. repeat split; auto; try lia.
    now apply keeps_rows_refl.
  - destruct (iteration e w) as [o w1] eqn:E.
    apply iteration_frame in E as (H1 & H2 & (tail & H3 & H4 & H5) & H6).
    assert (Hp : polls_in (calls w1) = polls_in (calls w) + 1).
    { rewrite H3, polls_in_app. change (CPoll :: tail) with ([CPoll] ++ tail).
      rewrite polls_in_app, H4. reflexivity. }
    assert (Hc : closes_in (calls w1) = closes_in (calls w)).
    { rewrite H3, closes_in_app. change (CPoll :: tail) with ([CPoll] ++ tail).
      rewrite closes_in_app, H5. simpl. lia. }
    destruct o as [u|x].
    + apply IH in H as (I1 & I2 & I3 & I4 & I5 & I6). simpl.
      repeat split; try congruence; try lia.
      * intros Hn. rewrite (I5 Hn). lia.
      * exact (keeps_rows_trans _ _ _ H6 I6).
    + inversion H; subst. simpl. repeat split; auto; try lia. discriminate.
Qed.

(** However the loop is left, both the consumer and the connection are
    closed, by the last two calls made, and by no call before them. *)
Theorem termination_closes_resources envs w r w' :
  ingestion envs w = (TERMINATED r, w') ->
  consumer_open w' = false /\ closed (conn w') = true /\
  exists before,
    calls w' = before ++ [CConsumerClose; CConnClose] /\
    closes_in before = closes_in (calls w).
Proof.
  unfold ingestion. intros H.
  destruct (while_true envs w) as [[x|] w1] eqn:E; [|discriminate].
  rewrite shutting_down_eq in H. inversion H; subst. simpl.
  apply while_true_frame in E as (_ & _ & Hc & _). eauto.
Qed.

Lemma termination_closes_resources_witness :
  consumer_open (after_shutdown write_error
                   (World (conn running_world) true
                          [CPoll; CExecuteInsert example_record]
                          [(ERROR, of_string "Failed to insert log into PostgreSQL: "
                                   ++ exn_str write_error)])) = false /\
  closed (conn (after_shutdown write_error
                  (World (conn running_world) true
                         [CPoll; CExecuteInsert example_record]
                         [(ERROR, of_string "Failed to insert log into PostgreSQL: "
                                  ++ exn_str write_error)]))) = true /\
  exists before,
    calls (after_shutdown write_error
             (World (conn running_world) true
                    [CPoll; CExecuteInsert example_record]
                    [(ERROR, of_string "Failed to insert log into PostgreSQL: "
                             ++ exn_str write_error)]))
    = before ++ [CConsumerClose; CConnClose] /\
    closes_in before = closes_in (calls running_world).
Proof.
  apply (termination_closes_resources [failing_insert_step; no_message_step]
           running_world (Raised write_error)).
  reflexivity.
Defined.

(** While the loop runs, the consumer and the connection are as they were,
    nothing has been closed, and the stream has been polled exactly once
    for each turn. *)
Theorem running_polls_once_per_turn envs w w' :
  ingestion envs w = (RUNNING, w') ->
  consumer_open w' = consumer_open w /\
  closed (conn w') = closed (conn w) /\
  closes_in (calls w') = closes_in (calls w) /\
  polls_in (calls w') = polls_in (calls w) + length envs.
Proof.
  unfold ingestion. intros H.
  destruct (while_true envs w) as [[x|] w1] eqn:E.
  - rewrite shutting_down_eq in H. discriminate.
  - inversion H; subst.
    apply while_true_frame in E as (H1 & H2 & H3 & _ & H5 & _). auto.
Qed.

Lemma running_witness_run :
  ingestion [no_message_step; garbage_step; partition_eof_step] running_world
  = (RUNNING,
     World (conn running_world) true [CPoll; CPoll; CPoll]
           [ (WARNING, of_string "Log format is invalid: " ++ garbage_line);
             (ERROR, of_string "Kafka error: Broker: No more messages");
             (INFO, of_string "End of partition reached: 0") ]).
Proof. vm_compute. reflexivity. Qed.

Lemma running_polls_once_per_turn_witness :
  let w' := World (conn running_world) true [CPoll; CPoll; CPoll]
              [ (WARNING, of_string "Log format is invalid: " ++ garbage_line);
                (ERROR, of_string "Kafka error: Broker: No more messages");
                (INFO, of_string "End of partition reached: 0") ] in
  consumer_open w' = consumer_open running_world /\
  closed (conn w') = closed (conn running_world) /\
  closes_in (calls w') = closes_in (calls running_world) /\
  polls_in (calls w') = polls_in (calls running_world) + 3.
Proof.
  exact (running_polls_once_per_turn
           [no_message_step; garbage_step; partition_eof_step]
           running_world _ running_witness_run).
Defined.

(** Whatever happens in the loop, and however it ends, the rows the table
    held before are still there, in place: the loop only ever adds rows at
    the end of the table. *)
Theorem stored_rows_never_lost envs w p w' t :
  ingestion envs w = (p, w') ->
  catalog (conn w) !! "logs" = Some t ->
  exists t' new,
    catalog (conn w') !! "logs" = Some t' /\
    schema t' = schema t /\ rows t' = rows t ++ new.
Proof.
  unfold ingestion. intros H Ht.
  destruct (while_true envs w) as [[x|] w1] eqn:E;
    apply while_true_frame in E as (_ & _ & _ & _ & _ & Hk);
    destruct (Hk t Ht) as (t' & Ht' & Hs & new & Hr); exists t', new.
  - rewrite shutting_down_eq in H. inversion H; subst. simpl. auto.
  - inversion H; subst. auto.
Qed.

Lemma one_row_world_logs :
  catalog (conn one_row_world) !! "logs"
  = Some (Table logs_schema 2 [example_row]).
Proof. apply lookup_singleton_eq. Qed.

Lemma stored_rows_witness_run :
  ingestion [garbage_step; failing_insert_step] one_row_world
  = (TERMINATED (Raised write_error),
     after_shutdown write_error
       (World (conn one_row_world) true
              [CPoll; CPoll; CExecuteInsert example_record]
              [ (WARNING, of_string "Log format is invalid: " ++ garbage_line);
                (ERROR, of_string "Failed to insert log into PostgreSQL: "
                        ++ exn_str write_error) ])).
Proof. reflexivity. Qed.

Lemma stored_rows_never_lost_witness :
  exists t' new,
    catalog (conn (after_shutdown write_error
       (World (conn one_row_world) true
              [CPoll; CPoll; CExecuteInsert example_record]
              [ (WARNING, of_string "Log format is invalid: " ++ garbage_line);
                (ERROR, of_string "Failed to insert log into PostgreSQL: "
                        ++ exn_str write_error) ]))) !! "logs" = Some t' /\
    schema t' = schema (Table logs_schema 2 [example_row]) /\
    rows t' = rows (Table logs_schema 2 [example_row]) ++ new.
Proof.
  exact (stored_rows_never_lost [garbage_step; failing_insert_step]
           one_row_world _ _ _ stored_rows_witness_run one_row_world_logs).
Defined.

(** When the poll is interrupted ([KeyboardInterrupt]), the loop is left
    without an error: the interruption is logged as information, the
    consumer and the connection are closed, the store is not called, and
    [consume_logs] returns normally. *)
Theorem interrupt_is_graceful e rest w x :
  polled e = Raised x -> exn_class_of x = KeyboardInterrupt ->
  exists w',
    ingestion (e :: rest) w = (TERMINATED (Ok tt), w') /\
    consumer_open w' = false /\ closed (conn w') = true /\
    catalog (conn w') = catalog (conn w) /\
    calls w' = calls w ++ [CPoll; CConsumerClose; CConnClose] /\
    log w' = log w ++
             [ (INFO, of_string "Consumer interrupted by user.");
               (INFO, of_string "Kafka consumer and PostgreSQL connection closed.") ].
Proof.
  intros Hp Hx. eexists.
  rewrite (ingestion_raised e rest w x _ (iteration_poll_raises e w x Hp)).
  unfold exit_of, after_shutdown, is_Exception. rewrite Hx. simpl.
  rewrite <- !app_assoc. repeat split.
Qed.

Lemma interrupt_is_graceful_witness :
  exists w',
    ingestion [interrupt_step; example_step] running_world
    = (TERMINATED (Ok tt), w') /\
    consumer_open w' = false /\ closed (conn w') = true /\
    catalog (conn w') = catalog (conn running_world) /\
    calls w' = calls running_world ++ [CPoll; CConsumerClose; CConnClose] /\
    log w' = log running_world ++
             [ (INFO, of_string "Consumer interrupted by user.");
               (INFO, of_string "Kafka consumer and PostgreSQL connection closed.") ].
Proof.
  exact (interrupt_is_graceful interrupt_step [example_step] running_world
           interrupt eq_refl eq_refl).
Defined.

(** A message whose payload cannot be decoded is not a parse failure: the
    exception leaves the loop, which ends on it re-raised, the consumer
    and the connection closed, without [parse_log] having logged and
    without a call to the store. *)
Theorem undecodable_payload_is_fatal e rest w m x :
  polled e = Ok (Some m) -> error m = None -> value m = Raised x ->
  is_Exception x = true ->
  exists w',
    ingestion (e :: rest) w = (TERMINATED (Raised x), w') /\
    consumer_open w' = false /\ closed (conn w') = true /\
    catalog (conn w') = catalog (conn w) /\
    calls w' = calls w ++ [CPoll; CConsumerClose; CConnClose] /\
    log w' = log w ++
             [ (ERROR, of_string "Unexpected error in consumer loop: " ++ exn_str x);
               (INFO, of_string "Kafka consumer and PostgreSQL connection closed.") ].
Proof.
  intros Hp He Hv Hx. eexists.
  rewrite (ingestion_raised e rest w x _ (iteration_undecodable e w m x Hp He Hv)).
  unfold exit_of, after_shutdown. rewrite Hx. simpl.
  rewrite <- !app_assoc. repeat split.
Qed.

Lemma undecodable_payload_is_fatal_witness :
  exists w',
    ingestion [undecodable_step; example_step] running_world
    = (TERMINATED (Raised (Exn UnicodeDecodeError (of_string "invalid start byte"))), w') /\
    consumer_open w' = false /\ closed (conn w') = true /\
    catalog (conn w') = catalog (conn running_world) /\
    calls w' = calls running_world ++ [CPoll; CConsumerClose; CConnClose] /\
    log w' = log running_world ++
             [ (ERROR, of_string "Unexpected error in consumer loop: "
                       ++ exn_str (Exn UnicodeDecodeError (of_string "invalid start byte")));
               (INFO, of_string "Kafka consumer and PostgreSQL connection closed.") ].
Proof.
  exact (undecodable_payload_is_fatal undecodable_step [example_step]
           running_world _ _ eq_refl eq_refl eq_refl eq_refl).
Defined.

Lemma schema_ok_with_row t r : schema_ok (with_row t r) = schema_ok t.
Proof. reflexivity. Qed.

Lemma records_of_cons e envs :
  records_of (e :: envs)
  = match payload_record e with Some d => [d] | None => [] end
    ++ records_of envs.
Proof. reflexivity. Qed.

(** What a turn without failure does to a running world. *)
Lemma quiet_iteration e w t :
  quiet (backend (conn w)) e = true ->
  closed (conn w) = false ->
  catalog (conn w) !! "logs" = Some t ->
  schema_ok t = true ->
  exists w1 t1,
    iteration e w = (Ok tt, w1) /\
    closed (conn w1) = false /\
    backend (conn w1) = backend (conn w) /\
    catalog (conn w1) !! "logs" = Some t1 /\
    schema_ok t1 = true /\
    t1 = match payload_record e with
         | Some d =>
             match accepted (backend (conn w)) d with
             | Some z => with_row t (Row (next_id t) z (text_columns d))
             | None => t
             end
         | None => t
         end.
Proof.
  unfold quiet, payload_record. intros Hq Hc Ht Hs.
  destruct (on_execute (store_fault e)) as [y|] eqn:Hf; [discriminate|].
  destruct (on_commit (store_fault e)) as [y|] eqn:Hm; [discriminate|].
  destruct (polled e) as [[m|]|x] eqn:Hp; [| |discriminate].
  - destruct (error m) as [err|] eqn:He.
    + apply Z.eqb_eq in Hq. exists (World (conn w) (consumer_open w)
        (calls w ++ [CPoll])
        (log w ++ [ (ERROR, of_string "Kafka error: " ++ error_str err);
                    (INFO, of_string "End of partition reached: "
                           ++ format_partition (partition m)) ])), t.
      split; [exact (iteration_informational e w m err Hp He Hq)|]. auto.
    + destruct (value m) as [s|x] eqn:Hv; [|discriminate].
      destruct (fst (parse_log s)) as [d|] eqn:Hd.
      * destruct (accepted (backend (conn w)) d) as [z|] eqn:Ha; [|discriminate].
        rewrite (iteration_parsed e w m s d Hp He Hv Hd).
        eexists. exists (with_row t (Row (next_id t) z (text_columns d))).
        split.
        -- exact (insert_log_ok (store_fault e) (after_poll w) d t z
                    Hf Hm Hc Ht Hs Ha).
        -- simpl. split; [reflexivity|]. split; [reflexivity|].
           split; [apply lookup_insert_eq|]. split; [exact Hs|reflexivity].
      * exists (World (conn w) (consumer_open w) (calls w ++ [CPoll])
                  (log w ++ [(WARNING, of_string "Log format is invalid: " ++ s)])), t.
        split; [exact (iteration_parse_failure e w m s Hp He Hv Hd)|]. auto.
  - exists (after_poll w), t.
    split; [exact (iteration_no_message e w Hp)|]. auto.
Qed.

Lemma quiet_while_true envs : forall w t,
  forallb (quiet (backend (conn w))) envs = true ->
  closed (conn w) = false ->
  catalog (conn w) !! "logs" = Some t ->
  schema_ok t = true ->
  exists w',
    while_true envs w = (None, w') /\
    closed (conn w') = false /\
    catalog (conn w') !! "logs"
    = Some (Table (schema t)
              (next_id t
               + Z.of_nat (length (number_rows (backend (conn w)) (next_id t)
                                               (records_of envs))))
              (rows t ++ number_rows (backend (conn w)) (next_id t)
                                     (records_of envs))).
Proof.
  induction envs as [|e envs IH]; intros w t Hq Hc Ht Hs.
  - exists w. simpl. rewrite Z.add_0_r, app_nil_r. destruct t. auto.
  - cbn [forallb] in Hq. apply andb_true_iff in Hq as [Hq Hqs].
    destruct (quiet_iteration e w t Hq Hc Ht Hs)
      as (w1 & t1 & Hi & Hc1 & Hb1 & Ht1 & Hs1 & Et1).
    rewrite <- Hb1 in Hqs.
    destruct (IH w1 t1 Hqs Hc1 Ht1 Hs1) as (w' & Hw & Hc' & Ht').
    exists w'. cbn [while_true]. rewrite Hi.
    split; [exact Hw|]. split; [exact Hc'|]. rewrite Ht', Hb1.
    rewrite records_of_cons.
    destruct (payload_record e) as [d|]; [|subst t1; reflexivity].
    cbn [app number_rows].
    destruct (accepted (backend (conn w)) d) as [z|] eqn:Ha;
      [|subst t1; reflexivity].
    subst t1. unfold with_row. cbn [schema next_id rows length].
    rewrite <- app_assoc. do 2 f_equal. lia.
Qed.

(** Over turns without failure (the server taking the tuple of each
    message that parses) the loop keeps running and stores those tuples,
    one row each, in the order of the messages and under successive keys,
    after the rows the table had; the messages that do not parse leave no
    row. *)
Theorem quiet_run_stores_in_order envs w t :
  forallb (quiet (backend (conn w))) envs = true ->
  closed (conn w) = false ->
  catalog (conn w) !! "logs" = Some t ->
  schema_ok t = true ->
  exists w',
    ingestion envs w = (RUNNING, w') /\
    catalog (conn w') !! "logs"
    = Some (Table (schema t)
              (next_id t
               + Z.of_nat (length (number_rows (backend (conn w)) (next_id t)
                                               (records_of envs))))
              (rows t ++ number_rows (backend (conn w)) (next_id t)
                                     (records_of envs))).
Proof.
  intros Hq Hc Ht Hs.
  destruct (quiet_while_true envs w t Hq Hc Ht Hs) as (w' & Hw & _ & Ht').
  exists w'. unfold ingestion. rewrite Hw. auto.
Qed.

Lemma quiet_run_stores_in_order_witness :
  exists w',
    ingestion [example_step; garbage_step; no_message_step; example_step]
              running_world = (RUNNING, w') /\
    catalog (conn w') !! "logs"
    = Some (Table (schema (Table logs_schema 1 []))
              (next_id (Table logs_schema 1 [])
               + Z.of_nat (length (number_rows (backend (conn running_world))
                    (next_id (Table logs_schema 1 []))
                    (records_of
                       [example_step; garbage_step; no_message_step; example_step]))))
              (rows (Table logs_schema 1 [])
               ++ number_rows (backend (conn running_world))
                    (next_id (Table logs_schema 1 []))
                    (records_of
                       [example_step; garbage_step; no_message_step; example_step]))).
Proof.
  exact (quiet_run_stores_in_order
           [example_step; garbage_step; no_message_step; example_step]
           running_world (Table logs_schema 1 []) eq_refl eq_refl
           running_world_logs eq_refl).
Defined.

Example rows_of_sample :
  number_rows sample_server 1
    (records_of [example_step; garbage_step; no_message_step; example_step])
  = [ Row 1 example_stamp (text_columns example_record);
      Row 2 example_stamp (text_columns example_record) ].
Proof. vm_compute. reflexivity. Qed.

Example records_of_sample :
  records_of [example_step; garbage_step; no_message_step; example_step]
  = [example_record; example_record].
Proof. vm_compute. reflexivity. Qed.

(* ------------------------------------------------------------------ *)
(** ** Startup *)

Lemma consume_logs_healthy s envs :
  connect_fault s = None ->
  on_execute (create_fault s) = None -> on_commit (create_fault s) = None ->
  subscribe_fault s = None ->
  consume_logs s envs =
  ingestion envs
    (World (Connection (database_server s)
                       (create_if_not_exists (database s)) false) true
           [CExecuteCreate; CCommit] (startup_log s)).
Proof.
  intros H1 H2 H2' H3.
  unfold consume_logs, create_postgres_connection, create_kafka_consumer.
  unfold_m. rewrite H1. simpl. rewrite H2. simpl. rewrite H2'. simpl.
  rewrite H3. reflexivity.
Qed.

Lemma create_if_not_exists_logs (cat : gmap string table) :
  create_if_not_exists cat !! "logs" = Some (bootstrapped_logs cat).
Proof.
  unfold create_if_not_exists, bootstrapped_logs.
  destruct (cat !! "logs") as [t|] eqn:E; [exact E|apply lookup_insert_eq].
Qed.

(** A failure at startup (of the connection, of the table creation, at
    its statement or at its commit, or of the subscription) ends
    [consume_logs] on that exception before the loop: the stream is never
    polled and nothing is closed, so that a connection that was made is
    left open. *)
Theorem startup_failure_skips_loop s envs x :
  connect_fault s = Some x \/
  (connect_fault s = None /\
   (on_execute (create_fault s) = Some x \/
    (on_execute (create_fault s) = None /\
     on_commit (create_fault s) = Some x))) \/
  (connect_fault s = None /\ on_execute (create_fault s) = None /\
   on_commit (create_fault s) = None /\ subscribe_fault s = Some x) ->
  exists w',
    consume_logs s envs = (TERMINATED (Raised x), w') /\
    polls_in (calls w') = 0 /\ closes_in (calls w') = 0 /\
    consumer_open w' = false /\
    (connect_fault s = None -> closed (conn w') = false).
Proof.
  unfold consume_logs, create_postgres_connection, create_kafka_consumer.
  unfold_m.
  intros [H1|[[H1 [H2|[H2 H2']]]|(H1 & H2 & H2' & H3)]].
  - rewrite H1. simpl. destruct (is_Exception x); simpl; eexists;
      (split; [reflexivity|]); simpl; repeat split; discriminate.
  - rewrite H1. simpl. rewrite H2. simpl. destruct (is_Exception x); simpl;
      eexists; (split; [reflexivity|]); simpl; repeat split.
  - rewrite H1. simpl. rewrite H2. simpl. rewrite H2'. simpl.
    destruct (is_Exception x); simpl;
      eexists; (split; [reflexivity|]); simpl; repeat split.
  - rewrite H1. simpl. rewrite H2. simpl. rewrite H2'. simpl. rewrite H3.
    simpl. destruct (is_Exception x); simpl;
      eexists; (split; [reflexivity|]); simpl; repeat split.
Qed.

Lemma startup_failure_skips_loop_witness :
  exists w',
    consume_logs refused_startup [example_step]
    = (TERMINATED (Raised connection_refused), w') /\
    polls_in (calls w') = 0 /\ closes_in (calls w') = 0 /\
    consumer_open w' = false /\
    (connect_fault refused_startup = None -> closed (conn w') = false).
Proof.
  exact (startup_failure_skips_loop refused_startup [example_step]
           connection_refused (or_introl eq_refl)).
Defined.

(** From a startup without failure and over turns without failure (the
    server taking the tuple of each message that parses), on a database
    whose [logs] table, if it has one, has the columns of the statement,
    [consume_logs] is still running after the turns, has polled once for
    each, and the [logs] table (the one found, or else a new one) holds
    its former rows followed by one row for each message that parses, in
    order. *)
Theorem consume_logs_stores_stream s envs :
  connect_fault s = None ->
  on_execute (create_fault s) = None -> on_commit (create_fault s) = None ->
  subscribe_fault s = None ->
  schema_ok (bootstrapped_logs (database s)) = true ->
  forallb (quiet (database_server s)) envs = true ->
  exists w',
    consume_logs s envs = (RUNNING, w') /\
    polls_in (calls w') = length envs /\
    catalog (conn w') !! "logs"
    = Some (Table (schema (bootstrapped_logs (database s)))
              (next_id (bootstrapped_logs (database s))
               + Z.of_nat (length (number_rows (database_server s)
                    (next_id (bootstrapped_logs (database s)))
                    (records_of envs))))
              (rows (bootstrapped_logs (database s))
               ++ number_rows (database_server s)
                    (next_id (bootstrapped_logs (database s)))
                    (records_of envs))).
Proof.
  intros H1 H2 H2' H3 Hs Hq.
  rewrite (consume_logs_healthy s envs H1 H2 H2' H3).
  set (w0 := World _ _ _ _).
  destruct (quiet_while_true envs w0 (bootstrapped_logs (database s)) Hq eq_refl
              (create_if_not_exists_logs (database s)) Hs) as (w' & Hw & _ & Ht').
  exists w'. unfold ingestion. rewrite Hw. split; [reflexivity|].
  split; [|exact Ht'].
  apply while_true_frame in Hw as (_ & _ & _ & _ & Hp & _).
  now rewrite (Hp eq_refl).
Qed.

Lemma consume_logs_stores_stream_witness :
  exists w',
    consume_logs healthy_startup [example_step; garbage_step; example_step]
    = (RUNNING, w') /\
    polls_in (calls w') = length [example_step; garbage_step; example_step] /\
    catalog (conn w') !! "logs"
    = Some (Table (schema (bootstrapped_logs (database healthy_startup)))
              (next_id (bootstrapped_logs (database healthy_startup))
               + Z.of_nat (length (number_rows (database_server healthy_startup)
                    (next_id (bootstrapped_logs (database healthy_startup)))
                    (records_of [example_step; garbage_step; example_step]))))
              (rows (bootstrapped_logs (database healthy_startup))
               ++ number_rows (database_server healthy_startup)
                    (next_id (bootstrapped_logs (database healthy_startup)))
                    (records_of [example_step; garbage_step; example_step]))).
Proof.
  exact (consume_logs_stores_stream healthy_startup
           [example_step; garbage_step; example_step]
           eq_refl eq_refl eq_refl eq_refl eq_refl eq_refl).
Defined.
